(** * Label correction in [animal/train.py]: prediction history, validation
      ledger, epoch selection and the correction call of the training loop.

    The tensors of the driver are modelled as lists over the rationals:
    [output_record] (30 x N x C) is a list of matrices, [val_record] a list of
    30 scalars, the label array a list of class indices.  Library functions
    ([F.softmax], [np.argsort], the [DataLoader]) are modelled by what they
    compute; the exponential and the sorting routine, whose results are not
    fixed by the driver, are section variables with their contracts. *)

From Stdlib Require Import QArith Qminmax Qround Qpower Floats Lia.
From stdpp Require Import base list sorting gmap.


(** ** Hyperparameters written in [main] *)

Definition hist_depth : nat := 30.     (* torch.zeros([30, ...]), epoch % 30 *)
Definition top_k : nat := 10.          (* np.argsort(val_record)[-10:] *)
Definition warmup_epoch : nat := 40.   (* if epoch >= 40 *)
Definition batch_size : nat := 128.
Definition num_class : nat := 10.
Definition initial_thd : Q := 3 # 10.  (* current_thd: float = 0.3 *)
Definition thd_increment : Q := 1 # 10.

Local Open Scope Q_scope.

(** ** Tensors *)

Abbreviation vector := (list Q).
Abbreviation matrix := (list (list Q)).

Definition zeros1 (n : nat) : vector := replicate n 0.
Definition zeros2 (n c : nat) : matrix := replicate n (zeros1 c).
Definition zeros3 (h n c : nat) : list matrix := replicate h (zeros2 n c).

(** [v[i]] for an index known to be in range; 0 stands for a missing cell. *)
Definition at1 (v : vector) (i : nat) : Q := default 0 (v !! i).
Definition at2 (m : matrix) (i c : nat) : Q := at1 (default [] (m !! i)) c.
Definition at3 (t : list matrix) (s i c : nat) : Q := at2 (default [] (t !! s)) i c.

Definition Qsum (l : list Q) : Q := foldr Qplus 0 l.

Definition Qlt_bool (x y : Q) : bool := negb (Qle_bool y x).

(** A probability vector: entries in [0,1] that sum to 1. *)
Definition is_distribution (p : vector) : Prop :=
  Forall (fun x => 0 <= x /\ x <= 1) p /\ Qsum p == 1.

(** ** [F.softmax(outputs, dim = 1)] *)

Section Softmax.
Variable expQ : Q -> Q.
Hypothesis expQ_pos : forall x, 0 < expQ x.

Definition softmax_row (x : vector) : vector :=
  let s := Qsum (expQ <$> x) in (fun xi => expQ xi / s) <$> x.

Definition softmax (outputs : matrix) : matrix := softmax_row <$> outputs.

Lemma Qsum_exp_nonneg (x : vector) : 0 <= Qsum (expQ <$> x).
Proof.
  induction x as [|a x IH]; simpl; [apply Qle_refl|].
  apply Qle_trans with (0 + 0); [apply Qle_refl|].
  apply Qplus_le_compat; [apply Qlt_le_weak, expQ_pos | exact IH].
Qed.

Lemma Qsum_exp_pos (x : vector) : x <> [] -> 0 < Qsum (expQ <$> x).
Proof.
  destruct x as [|a x]; [congruence|]. intros _. simpl.
  apply Qlt_le_trans with (expQ a + 0).
  - rewrite Qplus_0_r. apply expQ_pos.
  - apply Qplus_le_compat; [apply Qle_refl | apply Qsum_exp_nonneg].
Qed.

Lemma Qsum_scaled (f : Q -> Q) (s : Q) (x : vector) :
  Qsum ((fun xi => f xi / s) <$> x) == Qsum (f <$> x) / s.
Proof.
  induction x as [|a x IH]; simpl.
  - unfold Qdiv. now rewrite Qmult_0_l.
  - rewrite IH. unfold Qdiv. now rewrite Qmult_plus_distr_l.
Qed.

Lemma exp_le_Qsum (a : Q) (x : vector) : a ∈ x -> expQ a <= Qsum (expQ <$> x).
Proof.
  induction x as [|b x IH]; intros Hin; [by apply elem_of_nil in Hin|].
  apply elem_of_cons in Hin as [->|Hin]; simpl.
  - apply Qle_trans with (expQ b + 0); [rewrite Qplus_0_r; apply Qle_refl|].
    apply Qplus_le_compat; [apply Qle_refl | apply Qsum_exp_nonneg].
  - apply Qle_trans with (0 + Qsum (expQ <$> x)).
    + rewrite Qplus_0_l. auto.
    + apply Qplus_le_compat; [apply Qlt_le_weak, expQ_pos | apply Qle_refl].
Qed.

Lemma softmax_row_length (x : vector) : length (softmax_row x) = length x.
Proof. unfold softmax_row. by rewrite length_fmap. Qed.

(** The rows written into the buffer are normalised. *)
Lemma softmax_row_distribution (x : vector) :
  x <> [] -> is_distribution (softmax_row x).
Proof.
  intros Hne. pose proof (Qsum_exp_pos x Hne) as Hs. split.
  - unfold softmax_row. apply Forall_forall. intros p Hp.
    apply list_elem_of_fmap in Hp as (a & -> & Ha). split.
    + apply Qle_shift_div_l; [exact Hs|]. rewrite Qmult_0_l.
      apply Qlt_le_weak, expQ_pos.
    + apply Qle_shift_div_r; [exact Hs|]. rewrite Qmult_1_l.
      by apply exp_le_Qsum.
  - unfold softmax_row. rewrite Qsum_scaled.
    apply Qmult_inv_r. intros E. rewrite E in Hs. by apply Qlt_irrefl in Hs.
Qed.
End Softmax.

Local Close Scope Q_scope.

(** ** [torch.utils.data.DataLoader] batching

    [BatchSampler.__iter__]: indices are appended to [batch]; a batch is
    yielded when it reaches [batch_size]; what is left at the end is yielded
    only when [drop_last] is false. *)

Fixpoint batch_sampler (bs : nat) (drop_last : bool) (batch sampler : list nat)
  : list (list nat) :=
  match sampler with
  | [] => if drop_last then [] else match batch with [] => [] | _ => [batch] end
  | idx :: rest =>
      let batch' := batch ++ [idx] in
      if length batch' =? bs then batch' :: batch_sampler bs drop_last [] rest
      else batch_sampler bs drop_last batch' rest
  end.

(** ** Tensor operations of the driver *)

(** [t[slot, indices] = rows]: row [j] of [rows] goes to column [indices[j]]. *)
Definition index_put (t : list matrix) (slot : nat) (indices : list nat)
  (rows : matrix) : list matrix :=
  alter (fun m => foldl (fun m' ip => <[ip.1 := ip.2]> m') m (zip indices rows)) slot t.

(** [t[ind]]: the rows of [t] at the positions [ind]; [None] is an IndexError. *)
Definition gather (t : list matrix) (ind : list nat) : option (list matrix) :=
  mapM (fun s => t !! s) ind.

(** [rows.mean(0)] for [rows] of shape (k, n, c). *)
Definition mean0 (n c : nat) (rows : list matrix) : matrix :=
  (fun i => (fun j => (Qsum ((fun m => at2 m i j) <$> rows)
                        / inject_Z (Z.of_nat (length rows)))%Q) <$> seq 0 c) <$> seq 0 n.

(** [a[-k:]] of Python: for [k = 0] this is [a[0:]], the whole sequence. *)
Definition py_last {A} (k : nat) (a : list A) : list A :=
  if k =? 0 then a else drop (length a - k) a.

(** ** [np.argsort]

    The driver calls [np.argsort] with its default [kind], which sorts
    ascending and promises no order among equal keys.  Its contract: the
    result is a permutation of the positions, ascending in the stored value. *)

Definition ascending_at (v : vector) (i j : nat) : Prop := (at1 v i <= at1 v j)%Q.

Definition ArgsortOf (v : vector) (p : list nat) : Prop :=
  p ≡ₚ seq 0 (length v) /\ StronglySorted (ascending_at v) p.

(** Two sorting routines that meet the contract and differ on equal keys:
    insertion with [<=] keeps equal keys in ascending slot order (a stable
    sort), insertion with [<] leaves them in descending slot order. *)

Fixpoint insert_by (cmp : Q -> Q -> bool) (v : vector) (i : nat) (p : list nat)
  : list nat :=
  match p with
  | [] => [i]
  | j :: rest => if cmp (at1 v i) (at1 v j) then i :: j :: rest
                 else j :: insert_by cmp v i rest
  end.

Definition argsort_by (cmp : Q -> Q -> bool) (v : vector) : list nat :=
  foldr (insert_by cmp v) [] (seq 0 (length v)).

Definition argsort_stable : vector -> list nat := argsort_by Qle_bool.
Definition argsort_reversed_ties : vector -> list nat := argsort_by Qlt_bool.

(** ** The dataset [Animal10] *)

(** Modelled from the spec: the class [Animal10] of [animal_dataset.py] is not
    part of the sources.  The spec gives the dataset one mutable label array
    covering all examples, which the driver reads as [trainset.targets], and
    has the correction output applied "by overwriting the dataset's label
    array": [update_corrupted_label] replaces the whole array. *)
Record Animal10 := { targets : list nat }.

(** Modelled from the spec: [Animal10.update_corrupted_label] is not part of
    the sources; the driver's "single authoritative overwrite" of the label
    array with the engine's output. *)
Definition update_corrupted_label (ds : Animal10) (y : list nat) : Animal10 :=
  {| targets := y |}.

(** [np.array(trainset.targets).copy()]: a fresh array with the same cells. *)
Definition np_copy (labels : list nat) : list nat := labels.

(** ** What one run of [main] cannot decide by itself *)

Record world := {
  n_train : nat;                   (* len(trainset) *)
  labels0 : list nat;              (* trainset.targets as loaded *)
  shuffle : nat -> list nat;       (* the sampler's order in each epoch:
                                      a permutation of range(len(trainset)) *)
  logits : nat -> nat -> vector;   (* model(images) for an example in an epoch *)
  val_correct : nat -> nat;        (* correct predictions on valset per epoch *)
  val_total : nat;                 (* len(valset) *)
}.

(** What [lrt_correction] hands back, or that it raised. *)
Inductive engine_result :=
| Returned (y_corrected : list nat) (thd : Q)
| Raises.

Definition engine_type := list nat -> matrix -> Q -> Q -> engine_result.

(** One entry per call of [lrt_correction] (ghost state). *)
Record call := {
  c_epoch : nat;
  c_labels : list nat;
  c_avg : matrix;
  c_thd : Q;
}.

Record state := {
  output_record : list matrix;
  val_record : vector;
  ind : list nat;
  trainset : Animal10;
  current_thd : Q;
  calls : list call;
}.

Inductive exn := ZeroDivisionError | IndexError | EngineError.

Inductive outcome :=
| Ok (st : state)
| Raise (e : exn) (st : state).

(** ** The Label Correction Engine [lrt_correction] *)

(** Modelled from the spec: [utils.lrt_correction] is not part of the sources.
    Section 4.4 of the spec: per example, [assigned = original_labels[i]],
    [best_other] the argmax of [avg_probs[i, c]] over the classes
    [c != assigned], [margin = p_best_other - p_assigned], relabel to
    [best_other] when [margin > current_threshold]; the new threshold is
    [min(current_threshold + threshold_increment, 1.0)].  Among equal maxima
    the lowest class wins, as the usual argmax.  Section 7: malformed inputs
    (mismatched lengths, a label outside the row) make the engine raise. *)
Fixpoint argmax_other_from (assigned c : nat) (row : vector)
  (best : option (nat * Q)) : option (nat * Q) :=
  match row with
  | [] => best
  | x :: rest =>
      let best' :=
        if c =? assigned then best
        else match best with
             | None => Some (c, x)
             | Some (b, xb) => if Qlt_bool xb x then Some (c, x) else best
             end in
      argmax_other_from assigned (S c) rest best'
  end.

(** Modelled from the spec: [best_other], the argmax over [c != assigned]
    (step 2 of section 4.4; part of the missing [utils.lrt_correction]). *)
Definition argmax_other (assigned : nat) (row : vector) : option nat :=
  fst <$> argmax_other_from assigned 0 row None.

(** Modelled from the spec: [margin = p_best_other - p_assigned] (step 3). *)
Definition margin (row : vector) (assigned best_other : nat) : Q :=
  (at1 row best_other - at1 row assigned)%Q.

(** Modelled from the spec: the decision of the missing [utils.lrt_correction]
    for one example (step 4: relabel when [margin > current_threshold]). *)
Definition lrt_one (current_threshold : Q) (assigned : nat) (row : vector)
  : option nat :=
  if length row <=? assigned then None
  else match argmax_other assigned row with
       | None => None
       | Some best_other =>
           Some (if Qlt_bool current_threshold (margin row assigned best_other)
                 then best_other else assigned)
       end.

(** Modelled from the spec: [utils.lrt_correction], which is not part of the
    sources: the per-example decision mapped over the examples, and the
    threshold update [min(current_threshold + threshold_increment, 1.0)]. *)
Definition lrt_correction : engine_type :=
  fun original_labels avg_probs current_threshold threshold_increment =>
    if length original_labels =? length avg_probs then
      match mapM (fun ya => lrt_one current_threshold ya.1 ya.2)
                 (zip original_labels avg_probs) with
      | Some revised_labels =>
          Returned revised_labels
                   (Qmin (current_threshold + threshold_increment) 1)
      | None => Raises
      end
    else Raises.

(** The spec's two scenarios for the engine. *)
Example lrt_scenario_relabel :
  lrt_correction [0] [[2 # 10; 75 # 100; 5 # 100]]%Q (3 # 10)%Q (1 # 10)%Q
  = Returned [1] (Qmin ((3 # 10) + (1 # 10)) 1)%Q.
Proof. reflexivity. Qed.

Example lrt_scenario_keep :
  lrt_correction [0] [[2 # 10; 75 # 100; 5 # 100]]%Q (6 # 10)%Q (1 # 10)%Q
  = Returned [0] (Qmin ((6 # 10) + (1 # 10)) 1)%Q.
Proof. reflexivity. Qed.

(** ** Selection with [np.argsort(...)[-k:]] *)

(** No two slots of the ledger hold the same value. *)
Definition distinct_values (v : vector) : Prop :=
  forall i j, i < length v -> j < length v -> (at1 v i == at1 v j)%Q -> i = j.

(** Equal values appear in ascending slot order (the order a stable sort
    leaves them in). *)
Definition ties_ascending (v : vector) (p : list nat) : Prop :=
  forall a b i j, p !! a = Some i -> p !! b = Some j -> a < b ->
                  (at1 v i == at1 v j)%Q -> i < j.

#[local] Instance ascending_at_trans (v : vector) : Transitive (ascending_at v).
Proof. intros i j k. unfold ascending_at. apply Qle_trans. Qed.

Lemma py_last_pos {A} (k : nat) (a : list A) :
  0 < k -> py_last k a = drop (length a - k) a.
Proof. unfold py_last. destruct k; [lia|done]. Qed.

Lemma py_last_zero {A} (a : list A) : py_last 0 a = a.
Proof. reflexivity. Qed.

Lemma py_last_length {A} (k : nat) (a : list A) :
  1 <= k <= length a -> length (py_last k a) = k.
Proof. intros Hk. rewrite py_last_pos by lia. rewrite length_drop. lia. Qed.

Lemma py_last_split {A} (k : nat) (a : list A) :
  0 < k -> a = take (length a - k) a ++ py_last k a.
Proof. intros Hk. rewrite py_last_pos by lia. by rewrite take_drop. Qed.

Lemma ArgsortOf_length (v : vector) (p : list nat) :
  ArgsortOf v p -> length p = length v.
Proof. intros [Hp _]. rewrite Hp. apply length_seq. Qed.

Lemma ArgsortOf_elem (v : vector) (p : list nat) (i : nat) :
  ArgsortOf v p -> i ∈ p <-> i < length v.
Proof. intros [Hp _]. rewrite Hp, elem_of_seq. lia. Qed.

Lemma ArgsortOf_NoDup (v : vector) (p : list nat) : ArgsortOf v p -> NoDup p.
Proof. intros [Hp _]. rewrite Hp. apply NoDup_seq. Qed.

(** With all-distinct values the contract leaves one result only. *)
Lemma ArgsortOf_unique (v : vector) (p p' : list nat) :
  distinct_values v -> ArgsortOf v p -> ArgsortOf v p' -> p = p'.
Proof.
  intros Hd Hp Hp'. pose proof Hp as [Hperm Hs]. pose proof Hp' as [Hperm' Hs'].
  apply (StronglySorted_unique_strong (ascending_at v)); [|done|done|by rewrite Hperm'].
  intros i j Hi Hj Hij Hji. apply Hd.
  - by apply (ArgsortOf_elem v p).
  - by apply (ArgsortOf_elem v p').
  - by apply Qle_antisym.
Qed.

(** Insertion sort of the slots by their value, for a comparison [cmp] that
    decides the order up to equal keys. *)
Lemma insert_by_perm (cmp : Q -> Q -> bool) (v : vector) (i : nat) (p : list nat) :
  insert_by cmp v i p ≡ₚ i :: p.
Proof.
  induction p as [|j p IH]; simpl; [done|].
  destruct (cmp _ _); [done|]. rewrite IH. apply Permutation_swap.
Qed.

Lemma insert_by_sorted (cmp : Q -> Q -> bool) (v : vector) (i : nat) (p : list nat) :
  (forall a b, cmp a b = true -> (a <= b)%Q) ->
  (forall a b, cmp a b = false -> (b <= a)%Q) ->
  StronglySorted (ascending_at v) p ->
  StronglySorted (ascending_at v) (insert_by cmp v i p).
Proof.
  intros Ht Hf. induction 1 as [|j p Hs IH Hall]; simpl.
  - repeat constructor.
  - destruct (cmp _ _) eqn:Ec.
    + apply Ht in Ec. constructor; [by constructor|].
      constructor; [done|]. eapply Forall_impl; [exact Hall|].
      intros x Hx. by transitivity j.
    + apply Hf in Ec. constructor; [done|].
      rewrite insert_by_perm. by constructor.
Qed.

Lemma argsort_by_ok (cmp : Q -> Q -> bool) (v : vector) :
  (forall a b, cmp a b = true -> (a <= b)%Q) ->
  (forall a b, cmp a b = false -> (b <= a)%Q) ->
  ArgsortOf v (argsort_by cmp v).
Proof.
  intros Ht Hf. unfold ArgsortOf, argsort_by.
  generalize (seq 0 (length v)) as l. induction l as [|i l [IHp IHs]]; simpl.
  - split; [done|constructor].
  - split; [by rewrite insert_by_perm, IHp | by apply insert_by_sorted].
Qed.

Lemma argsort_stable_ok (v : vector) : ArgsortOf v (argsort_stable v).
Proof.
  apply argsort_by_ok.
  - intros a b. apply Qle_bool_iff.
  - intros a b Hc. apply Qlt_le_weak, Qnot_le_lt. intros Hle.
    apply Qle_bool_iff in Hle. congruence.
Qed.

Lemma argsort_reversed_ties_ok (v : vector) : ArgsortOf v (argsort_reversed_ties v).
Proof.
  apply argsort_by_ok; unfold Qlt_bool.
  - intros a b Hc. apply Qlt_le_weak, Qnot_le_lt. intros Hle.
    apply Qle_bool_iff in Hle. rewrite Hle in Hc. done.
  - intros a b Hc. apply Qle_bool_iff. by destruct (Qle_bool b a).
Qed.

(** What [argsort(v)[-k:]] selects, for any result the contract allows. *)
Lemma py_last_argsort (v : vector) (p : list nat) (k : nat) :
  ArgsortOf v p -> 1 <= k <= length v ->
  length (py_last k p) = k /\ NoDup (py_last k p) /\
  (forall i, i ∈ py_last k p -> i < length v) /\
  StronglySorted (ascending_at v) (py_last k p) /\
  (forall i j, i ∈ py_last k p -> j < length v -> j ∉ py_last k p ->
               (at1 v j <= at1 v i)%Q).
Proof.
  intros Hp Hk. pose proof (ArgsortOf_length _ _ Hp) as Hlen.
  pose proof (ArgsortOf_NoDup _ _ Hp) as Hnd. pose proof Hp as [_ Hs].
  assert (0 < k) as Hk0 by lia.
  rewrite (py_last_split k p Hk0) in Hnd, Hs.
  apply NoDup_app in Hnd as (_ & _ & Hnd).
  apply StronglySorted_app in Hs as (Hcross & _ & Hs).
  repeat split; [apply py_last_length; lia|done| |done|].
  - intros i Hi. apply (ArgsortOf_elem v p); [done|].
    rewrite (py_last_split k p Hk0). apply elem_of_app. by right.
  - intros i j Hi Hj Hnj. apply Hcross; [|done].
    apply (ArgsortOf_elem v p) in Hj; [|done].
    rewrite (py_last_split k p Hk0) in Hj. apply elem_of_app in Hj as [|]; done.
Qed.

(** ** The epoch loop of [main] *)

Section Driver.
Variable expQ : Q -> Q.                (* the exponential inside F.softmax *)
Variable argsort : vector -> list nat. (* np.argsort *)
Variable lrt_correction_fn : engine_type. (* utils.lrt_correction *)
Variable w : world.

Definition trainloader (epoch : nat) : list (list nat) :=
  batch_sampler batch_size true [] (shuffle w epoch).

(** One iteration of the training [for]: a batch of a single image is
    skipped, otherwise the softmax rows are written at [epoch % 30]. *)
Definition train_batch (epoch : nat) (acc : list matrix * nat) (indices : list nat)
  : list matrix * nat :=
  if length indices =? 1 then acc
  else (index_put acc.1 (epoch mod hist_depth) indices
          (softmax expQ (logits w epoch <$> indices)),
        acc.2 + length indices).

(** The training pass: the new [output_record] and [train_total]. *)
Definition train_pass (epoch : nat) (rec : list matrix) : list matrix * nat :=
  foldl (train_batch epoch) (rec, 0) (trainloader epoch).

(** [val_correct / val_total * 100.] *)
Definition val_acc (epoch : nat) : Q :=
  (inject_Z (Z.of_nat (val_correct w epoch)) / inject_Z (Z.of_nat (val_total w))
   * 100)%Q.

Definition init_state : state :=
  {| output_record := zeros3 hist_depth (n_train w) num_class;
     val_record := zeros1 hist_depth;
     ind := [];
     trainset := {| targets := labels0 w |};
     current_thd := initial_thd;
     calls := [] |}.

(** The correction block, lines 139 to 141, entered when [epoch >= 40]. *)
Definition correction (epoch : nat) (st : state) : outcome :=
  match gather (output_record st) (ind st) with
  | None => Raise IndexError st
  | Some rows =>
      let output_selected := mean0 (n_train w) num_class rows in
      let arg := np_copy (targets (trainset st)) in
      let st' := {| output_record := output_record st;
                    val_record := val_record st;
                    ind := ind st;
                    trainset := trainset st;
                    current_thd := current_thd st;
                    calls := calls st ++ [{| c_epoch := epoch; c_labels := arg;
                                             c_avg := output_selected;
                                             c_thd := current_thd st |}] |} in
      match lrt_correction_fn arg output_selected (current_thd st) thd_increment with
      | Raises => Raise EngineError st'
      | Returned y_corrected thd =>
          Ok {| output_record := output_record st';
                val_record := val_record st';
                ind := ind st';
                trainset := update_corrupted_label (trainset st') y_corrected;
                current_thd := thd;
                calls := calls st' |}
      end
  end.

(** The body of [for epoch in range(args.nepoch)]. *)
Definition epoch_body (epoch : nat) (st : state) : outcome :=
  let '(rec, train_total) := train_pass epoch (output_record st) in
  let st1 := {| output_record := rec; val_record := val_record st; ind := ind st;
                trainset := trainset st; current_thd := current_thd st;
                calls := calls st |} in
  if train_total =? 0 then Raise ZeroDivisionError st1      (* train_acc *)
  else if val_total w =? 0 then Raise ZeroDivisionError st1 (* val_acc *)
  else
    let vr := <[epoch mod hist_depth := val_acc epoch]> (val_record st) in
    let st2 := {| output_record := rec; val_record := vr;
                  ind := py_last top_k (argsort vr);
                  trainset := trainset st; current_thd := current_thd st;
                  calls := calls st |} in
    if warmup_epoch <=? epoch then correction epoch st2 else Ok st2.

(** The program state after the first [n] epochs. *)
Fixpoint run (n : nat) : outcome :=
  match n with
  | 0 => Ok init_state
  | S n' => match run n' with
            | Ok st => epoch_body n' st
            | Raise e st => Raise e st
            end
  end.


(** ** The DataLoader with [drop_last = True] *)

Lemma batch_sampler_drop_last (bs : nat) (sampler batch : list nat) :
  0 < bs -> length batch < bs ->
  Forall (fun b => length b = bs) (batch_sampler bs true batch sampler) /\
  exists rest, concat (batch_sampler bs true batch sampler) ++ rest = batch ++ sampler
               /\ length rest < bs.
Proof.
  intros Hbs. revert batch.
  induction sampler as [|idx sampler IH]; intros batch Hlen; simpl.
  - split; [constructor|]. exists batch. by rewrite app_nil_r.
  - destruct (Nat.eqb_spec (length (batch ++ [idx])) bs) as [E|E].
    + destruct (IH [] Hbs) as (Hall & rest & Hcat & Hrest).
      split; [by constructor|]. exists rest. split; [|done].
      simpl. rewrite <- app_assoc, Hcat. simpl. by rewrite <- app_assoc.
    + rewrite length_app in E. simpl in E.
      destruct (IH (batch ++ [idx])) as (Hall & rest & Hcat & Hrest).
      { rewrite length_app. simpl. lia. }
      split; [done|]. exists rest. split; [|done].
      rewrite Hcat. by rewrite <- app_assoc.
Qed.

Lemma length_concat_uniform (bs : nat) (bl : list (list nat)) :
  Forall (fun b => length b = bs) bl -> length (concat bl) = bs * length bl.
Proof.
  induction 1 as [|b bl Hb _ IH]; simpl; [lia|].
  rewrite length_app, IH, Hb. lia.
Qed.

(** The batches cover a prefix of the sampler's order: its first
    [bs * (n / bs)] indices.  The remaining [n mod bs] are not yielded. *)
Lemma batch_sampler_covers (bs : nat) (sampler : list nat) :
  0 < bs ->
  concat (batch_sampler bs true [] sampler)
  = take (bs * (length sampler / bs)) sampler.
Proof.
  intros Hbs.
  destruct (batch_sampler_drop_last bs sampler [] Hbs Hbs) as (Hall & rest & Hcat & Hrest).
  simpl in Hcat. pose proof (length_concat_uniform _ _ Hall) as Hlen.
  set (bl := batch_sampler bs true [] sampler) in *. clearbody bl.
  assert (length sampler = bs * length bl + length rest) as Hn.
  { rewrite <- Hcat, length_app. lia. }
  assert (length sampler / bs = length bl) as ->.
  { symmetry. apply (Nat.div_unique _ _ _ (length rest)); [lia|]. exact Hn. }
  rewrite <- Hlen, <- Hcat. by rewrite take_app_length.
Qed.

(** ** Writing rows into a slot *)

Definition write_rows (f : nat -> vector) (indices : list nat) (m : matrix) : matrix :=
  foldl (fun m' i => <[i := f i]> m') m indices.

Lemma write_rows_zip (f : nat -> vector) (indices : list nat) (m : matrix) :
  foldl (fun m' ip => <[ip.1 := ip.2]> m') m (zip indices (f <$> indices))
  = write_rows f indices m.
Proof.
  unfold write_rows. revert m. induction indices as [|i l IH]; intros m; simpl; [done|].
  apply IH.
Qed.

Lemma write_rows_cons (f : nat -> vector) (j : nat) (l : list nat) (m : matrix) :
  write_rows f (j :: l) m = write_rows f l (<[j := f j]> m).
Proof. reflexivity. Qed.

Lemma write_rows_length (f : nat -> vector) (indices : list nat) (m : matrix) :
  length (write_rows f indices m) = length m.
Proof.
  revert m. induction indices as [|i l IH]; intros m; [done|].
  rewrite write_rows_cons, IH. apply length_insert.
Qed.

Lemma write_rows_app (f : nat -> vector) (l1 l2 : list nat) (m : matrix) :
  write_rows f (l1 ++ l2) m = write_rows f l2 (write_rows f l1 m).
Proof. unfold write_rows. apply foldl_app. Qed.

Lemma write_rows_not_elem (f : nat -> vector) (indices : list nat) (m : matrix) (i : nat) :
  i ∉ indices -> write_rows f indices m !! i = m !! i.
Proof.
  revert m. induction indices as [|j l IH]; intros m Hni; [done|].
  apply not_elem_of_cons in Hni as [Hne Hni].
  rewrite write_rows_cons, IH by done. by apply list_lookup_insert_ne.
Qed.

Lemma write_rows_elem (f : nat -> vector) (indices : list nat) (m : matrix) (i : nat) :
  i ∈ indices -> i < length m -> write_rows f indices m !! i = Some (f i).
Proof.
  revert m.
  induction indices as [|j l IH]; intros m Hin Hlt; [by apply elem_of_nil in Hin|].
  rewrite write_rows_cons. destruct (decide (i ∈ l)) as [Hl|Hl].
  - apply IH; [done|]. by rewrite length_insert.
  - apply elem_of_cons in Hin as [->|Hin]; [|done].
    rewrite write_rows_not_elem by done.
    by apply list_lookup_insert_eq.
Qed.

Lemma index_put_rows (f : nat -> vector) (t : list matrix) (slot : nat)
  (indices : list nat) :
  index_put t slot indices (f <$> indices) = alter (write_rows f indices) slot t.
Proof.
  unfold index_put. apply list_alter_ext; [|done].
  intros m _. apply write_rows_zip.
Qed.

(** ** The training pass of one epoch *)

(** The row recorded for example [i] in epoch [epoch]. *)
Definition recorded_row (epoch i : nat) : vector :=
  softmax_row expQ (logits w epoch i).

(** The examples the training pass of an epoch visits. *)
Definition visited (epoch : nat) : list nat := concat (trainloader epoch).

Lemma trainloader_full_batches (epoch : nat) :
  Forall (fun b => length b = batch_size) (trainloader epoch).
Proof. apply batch_sampler_drop_last; unfold batch_size; simpl; lia. Qed.

Lemma visited_prefix (epoch : nat) :
  visited epoch
  = take (batch_size * (length (shuffle w epoch) / batch_size)) (shuffle w epoch).
Proof. apply batch_sampler_covers. unfold batch_size. lia. Qed.

Lemma foldl_train_batch (epoch : nat) (bl : list (list nat)) (rec : list matrix) (t : nat) :
  Forall (fun b => length b = batch_size) bl ->
  foldl (train_batch epoch) (rec, t) bl
  = (alter (write_rows (recorded_row epoch) (concat bl)) (epoch mod hist_depth) rec,
     t + length (concat bl)).
Proof.
  intros Hall. revert rec t. induction Hall as [|b bl Hb _ IH]; intros rec t.
  - simpl. f_equal; [|lia]. symmetry. by apply list_alter_id.
  - cbn [foldl]. unfold train_batch at 2. rewrite Hb.
    change (batch_size =? 1) with false. cbn [fst snd].
    unfold softmax. rewrite <- list_fmap_compose.
    change (softmax_row expQ ∘ logits w epoch) with (recorded_row epoch).
    rewrite index_put_rows, IH, list_alter_alter_eq. f_equal.
    + apply list_alter_ext; [|done]. intros m _. simpl.
      by rewrite write_rows_app.
    + simpl. rewrite length_app. lia.
Qed.

Lemma train_pass_eq (epoch : nat) (rec : list matrix) :
  train_pass epoch rec
  = (alter (write_rows (recorded_row epoch) (visited epoch)) (epoch mod hist_depth) rec,
     length (visited epoch)).
Proof.
  unfold train_pass. rewrite foldl_train_batch by apply trainloader_full_batches.
  done.
Qed.

Lemma visited_length (epoch : nat) :
  length (visited epoch) = batch_size * (length (shuffle w epoch) / batch_size).
Proof.
  rewrite visited_prefix. apply length_take_le.
  apply Nat.Div0.mul_div_le.
Qed.

(** ** One epoch, read off [epoch_body] *)

(** The tensors an epoch leaves behind when it gets past the two divisions. *)
Definition record_after (epoch : nat) (rec : list matrix) : list matrix :=
  alter (write_rows (recorded_row epoch) (visited epoch)) (epoch mod hist_depth) rec.

Definition ledger_after (epoch : nat) (vr : vector) : vector :=
  <[epoch mod hist_depth := val_acc epoch]> vr.

Definition call_of (epoch : nat) (st : state) (rows : list matrix) : call :=
  {| c_epoch := epoch; c_labels := targets (trainset st);
     c_avg := mean0 (n_train w) num_class rows; c_thd := current_thd st |}.

Lemma epoch_body_Ok (epoch : nat) (st st' : state) :
  epoch_body epoch st = Ok st' ->
  output_record st' = record_after epoch (output_record st) /\
  val_record st' = ledger_after epoch (val_record st) /\
  ind st' = py_last top_k (argsort (val_record st')) /\
  visited epoch <> [] /\ val_total w <> 0 /\
  if warmup_epoch <=? epoch then
    exists rows y thd,
      gather (output_record st') (ind st') = Some rows /\
      lrt_correction_fn (targets (trainset st)) (c_avg (call_of epoch st rows))
        (current_thd st) thd_increment = Returned y thd /\
      trainset st' = update_corrupted_label (trainset st) y /\
      current_thd st' = thd /\
      calls st' = calls st ++ [call_of epoch st rows]
  else trainset st' = trainset st /\ current_thd st' = current_thd st /\
       calls st' = calls st.
Proof.
  unfold epoch_body. rewrite train_pass_eq.
  destruct (Nat.eqb_spec (length (visited epoch)) 0) as [|Hv]; [done|].
  destruct (Nat.eqb_spec (val_total w) 0) as [|Ht]; [done|].
  assert (visited epoch <> []) as Hne by (intros E; by rewrite E in Hv).
  destruct (warmup_epoch <=? epoch).
  - unfold correction. cbn [output_record val_record ind trainset current_thd calls].
    destruct (gather _ _) as [rows|] eqn:Hg; [|done].
    destruct (lrt_correction_fn _ _ _ _) as [y thd|] eqn:He; [|done].
    intros [= <-]. cbn [output_record val_record ind trainset current_thd calls].
    repeat split; try done. by exists rows, y, thd.
  - intros [= <-]. cbn [output_record val_record ind trainset current_thd calls].
    by repeat split.
Qed.

(** An exception leaves the dataset as the epoch found it. *)
Lemma epoch_body_Raise (epoch : nat) (st st' : state) (e : exn) :
  epoch_body epoch st = Raise e st' ->
  trainset st' = trainset st /\ current_thd st' = current_thd st.
Proof.
  unfold epoch_body. rewrite train_pass_eq.
  destruct (_ =? 0); [by intros [= <- <-]|].
  destruct (_ =? 0); [by intros [= <- <-]|].
  destruct (warmup_epoch <=? epoch); [|done].
  unfold correction. cbn [output_record val_record ind trainset current_thd calls].
  destruct (gather _ _) as [rows|]; [|by intros [= <- <-]].
  destruct (lrt_correction_fn _ _ _ _) as [y thd|]; [done|].
  by intros [= <- <-].
Qed.

Lemma run_S_Ok (n : nat) (st' : state) :
  run (S n) = Ok st' -> exists st, run n = Ok st /\ epoch_body n st = Ok st'.
Proof. simpl. destruct (run n) as [st|]; [|done]. intros Hb. by exists st. Qed.

Lemma run_Ok_le (n m : nat) (st : state) :
  run m = Ok st -> n <= m -> exists st0, run n = Ok st0.
Proof.
  intros Hm Hle. revert st Hm. induction Hle as [|m Hle IH]; intros st Hm; [by exists st|].
  apply run_S_Ok in Hm as (st1 & Hm & _). by apply (IH st1).
Qed.

(** ** What the two ring buffers hold after [n] epochs *)

(** The last epoch before [n] that wrote ledger slot [s]. *)
Fixpoint last_epoch_in (n s : nat) : option nat :=
  match n with
  | 0 => None
  | S n' => if decide (n' mod hist_depth = s) then Some n' else last_epoch_in n' s
  end.

(** The last epoch before [n] that wrote the row of example [i] in slot [s]. *)
Fixpoint last_visit_in (n s i : nat) : option nat :=
  match n with
  | 0 => None
  | S n' => if decide (n' mod hist_depth = s /\ i ∈ visited n') then Some n'
            else last_visit_in n' s i
  end.

(** [t[s, i]] *)
Definition row_at (t : list matrix) (s i : nat) : option vector :=
  t !! s ≫= fun m => m !! i.

Lemma last_epoch_in_Some (n s e : nat) :
  last_epoch_in n s = Some e ->
  e < n /\ e mod hist_depth = s /\ forall e', e < e' < n -> e' mod hist_depth <> s.
Proof.
  induction n as [|n IH]; cbn [last_epoch_in]; [done|].
  destruct (decide (n mod hist_depth = s)) as [E|E].
  - intros [= <-]. repeat split; [lia|done|lia].
  - intros Hl. destruct (IH Hl) as (? & ? & Hmax). repeat split; [lia|done|].
    intros e' He'. destruct (decide (e' = n)) as [->|]; [done|]. apply Hmax. lia.
Qed.

Lemma last_epoch_in_None (n s : nat) :
  last_epoch_in n s = None -> forall e, e < n -> e mod hist_depth <> s.
Proof.
  induction n as [|n IH]; cbn [last_epoch_in]; [lia|].
  destruct (decide (n mod hist_depth = s)) as [E|E]; [done|].
  intros Hl e He. destruct (decide (e = n)) as [->|]; [done|]. apply IH; [done|lia].
Qed.

(** Once [hist_depth] epochs have run, every slot has been written, and by
    one of the last [hist_depth] epochs. *)
Lemma last_epoch_in_recent (n s : nat) :
  hist_depth <= n -> s < hist_depth ->
  exists e, last_epoch_in n s = Some e /\ e < n <= e + hist_depth
            /\ e mod hist_depth = s.
Proof.
  intros Hn Hs. destruct (last_epoch_in n s) as [e|] eqn:El.
  - apply last_epoch_in_Some in El as (Hlt & Hmod & Hmax).
    exists e. repeat split; [done| |done].
    destruct (decide (n <= e + hist_depth)) as [|Hgt]; [done|].
    exfalso. apply (Hmax (e + hist_depth)); [lia|].
    replace (e + hist_depth) with (e + 1 * hist_depth) by lia.
    by rewrite Nat.Div0.mod_add.
  - exfalso. apply (last_epoch_in_None _ _ El s); [lia|].
    by apply Nat.mod_small.
Qed.

Lemma last_visit_in_Some (n s i e : nat) :
  last_visit_in n s i = Some e ->
  e < n /\ e mod hist_depth = s /\ i ∈ visited e /\
  forall e', e < e' < n -> e' mod hist_depth = s -> i ∉ visited e'.
Proof.
  induction n as [|n IH]; cbn [last_visit_in]; [done|].
  destruct (decide _) as [[E1 E2]|E].
  - intros [= <-]. repeat split; [lia|done|done|lia].
  - intros Hl. destruct (IH Hl) as (? & ? & ? & Hmax). repeat split; [lia|done|done|].
    intros e' He' Hm. destruct (decide (e' = n)) as [->|]; [tauto|]. apply Hmax; [lia|done].
Qed.

Lemma last_visit_in_None (n s i : nat) :
  last_visit_in n s i = None ->
  forall e, e < n -> e mod hist_depth = s -> i ∉ visited e.
Proof.
  induction n as [|n IH]; cbn [last_visit_in]; [lia|].
  destruct (decide _) as [|E]; [done|].
  intros Hl e He Hm. destruct (decide (e = n)) as [->|]; [tauto|]. apply IH; [done|lia|done].
Qed.

Lemma run_shapes (n : nat) (st : state) :
  run n = Ok st ->
  length (output_record st) = hist_depth /\ length (val_record st) = hist_depth /\
  Forall (fun m => length m = n_train w) (output_record st).
Proof.
  revert st. induction n as [|n IH]; intros st.
  - intros [= <-]. unfold init_state, zeros3, zeros2, zeros1.
    cbn [output_record val_record]. rewrite !length_replicate. repeat split.
    apply Forall_replicate. by rewrite length_replicate.
  - intros Hr. apply run_S_Ok in Hr as (st0 & Hr & Hb).
    destruct (IH _ Hr) as (H1 & H2 & H3).
    apply epoch_body_Ok in Hb as (-> & -> & _).
    unfold record_after, ledger_after. rewrite length_alter, length_insert.
    repeat split; [done..|].
    apply Forall_alter; [done|]. intros m _ Hm. by rewrite write_rows_length.
Qed.

(** The ledger: slot [s] holds the accuracy of the last epoch that wrote it,
    or the initial zero. *)
Lemma run_ledger (n : nat) (st : state) (s : nat) :
  run n = Ok st -> s < hist_depth ->
  val_record st !! s = Some (from_option val_acc 0%Q (last_epoch_in n s)).
Proof.
  revert st. induction n as [|n IH]; intros st.
  - intros [= <-] Hs. by apply lookup_replicate_2.
  - intros Hr Hs. apply run_S_Ok in Hr as (st0 & Hr & Hb).
    destruct (run_shapes _ _ Hr) as (_ & Hlen & _).
    apply epoch_body_Ok in Hb as (_ & -> & _). unfold ledger_after.
    cbn [last_epoch_in].
    destruct (decide (n mod hist_depth = s)) as [<-|Hne].
    + rewrite list_lookup_insert_eq; [done|]. by rewrite Hlen.
    + rewrite list_lookup_insert_ne by done. by apply IH.
Qed.

(** The buffer: the row of example [i] in slot [s] is the one recorded by the
    last epoch that used slot [s] and visited [i], or the initial zeros. *)
Lemma run_buffer (n : nat) (st : state) (s i : nat) :
  run n = Ok st -> s < hist_depth -> i < n_train w ->
  row_at (output_record st) s i
  = Some (from_option (fun e => recorded_row e i) (zeros1 num_class)
                      (last_visit_in n s i)).
Proof.
  revert st. induction n as [|n IH]; intros st.
  - intros [= <-] Hs Hi. unfold row_at, init_state, zeros3.
    cbn [output_record last_visit_in from_option].
    rewrite lookup_replicate_2 by done. by apply lookup_replicate_2.
  - intros Hr Hs Hi. apply run_S_Ok in Hr as (st0 & Hr & Hb).
    destruct (run_shapes _ _ Hr) as (Hlen & _ & Hrows).
    specialize (IH _ Hr Hs Hi).
    apply epoch_body_Ok in Hb as (-> & _). unfold record_after, row_at in *.
    destruct (output_record st0 !! s) as [m|] eqn:Em; [|done]. simpl in IH.
    assert (length m = n_train w) as Hm.
    { eapply Forall_lookup_1 in Hrows; [exact Hrows|exact Em]. }
    cbn [last_visit_in]. destruct (decide (n mod hist_depth = s)) as [<-|Hne].
    + rewrite list_lookup_alter_eq, Em. simpl.
      destruct (decide (i ∈ visited n)) as [Hv|Hv].
      * rewrite decide_True by done. simpl.
        apply write_rows_elem; [done|]. by rewrite Hm.
      * rewrite decide_False by tauto. by rewrite write_rows_not_elem.
    + rewrite list_lookup_alter_ne by done. rewrite Em. simpl.
      rewrite decide_False by tauto. done.
Qed.

(** ** The calls of [lrt_correction] along a run *)

Definition call_result (c : call) : engine_result :=
  lrt_correction_fn (c_labels c) (c_avg c) (c_thd c) thd_increment.

(** [cs] is a chain of calls that starts from the labels [labels] and the
    threshold [thd]: each call is given what the previous one returned, and
    the last one returns [labels_end] and [thd_end]. *)
Fixpoint chained (labels : list nat) (thd : Q) (cs : list call)
  (labels_end : list nat) (thd_end : Q) : Prop :=
  match cs with
  | [] => labels_end = labels /\ thd_end = thd
  | c :: cs' =>
      c_labels c = labels /\ c_thd c = thd /\
      exists y t, call_result c = Returned y t /\ chained y t cs' labels_end thd_end
  end.

Lemma chained_snoc (labels : list nat) (thd : Q) (cs : list call)
  (l1 : list nat) (t1 : Q) (c : call) (y : list nat) (t : Q) :
  chained labels thd cs l1 t1 ->
  c_labels c = l1 -> c_thd c = t1 -> call_result c = Returned y t ->
  chained labels thd (cs ++ [c]) y t.
Proof.
  revert labels thd. induction cs as [|c0 cs IH]; intros labels thd; simpl.
  - intros [-> ->] Hl Ht Hr. repeat split; [done..|]. by exists y, t.
  - intros (Hl0 & Ht0 & y0 & t0 & Hr0 & Hch) Hl Ht Hr. repeat split; [done..|].
    exists y0, t0. split; [done|]. by apply IH.
Qed.

Lemma chained_first (labels : list nat) (thd : Q) (cs : list call)
  (l1 : list nat) (t1 : Q) (c : call) :
  chained labels thd cs l1 t1 -> cs !! 0 = Some c ->
  c_labels c = labels /\ c_thd c = thd.
Proof. destruct cs as [|c0 cs]; [done|]. simpl. intros (? & ? & _) [= <-]. done. Qed.

Lemma chained_next (labels : list nat) (thd : Q) (cs : list call)
  (l1 : list nat) (t1 : Q) (j : nat) (c c' : call) :
  chained labels thd cs l1 t1 -> cs !! j = Some c -> cs !! S j = Some c' ->
  call_result c = Returned (c_labels c') (c_thd c').
Proof.
  revert labels thd j. induction cs as [|c0 cs IH]; intros labels thd j; [done|].
  simpl. intros (_ & _ & y & t & Hr & Hch). destruct j as [|j]; simpl.
  - intros [= <-] Hc'. destruct (chained_first _ _ _ _ _ _ Hch Hc') as [-> ->]. done.
  - intros Hc Hc'. by apply (IH _ _ j Hch).
Qed.

Lemma chained_last (labels : list nat) (thd : Q) (cs : list call)
  (l1 : list nat) (t1 : Q) (c : call) :
  chained labels thd cs l1 t1 -> last cs = Some c ->
  call_result c = Returned l1 t1.
Proof.
  revert labels thd. induction cs as [|c0 cs IH]; intros labels thd; [done|].
  simpl. intros (_ & _ & y & t & Hr & Hch). destruct cs as [|c1 cs].
  - simpl in *. destruct Hch as [-> ->]. by intros [= <-].
  - intros Hl. by apply (IH _ _ Hch).
Qed.

(** The calls made in the first [n] epochs form a chain from the labels and
    threshold [main] starts with to the labels and threshold it now holds. *)
Lemma run_chained (n : nat) (st : state) :
  run n = Ok st ->
  chained (labels0 w) initial_thd (calls st) (targets (trainset st)) (current_thd st).
Proof.
  revert st. induction n as [|n IH]; intros st.
  - by intros [= <-].
  - intros Hr. apply run_S_Ok in Hr as (st0 & Hr & Hb). specialize (IH _ Hr).
    apply epoch_body_Ok in Hb as (_ & _ & _ & _ & _ & Hc).
    destruct (warmup_epoch <=? n).
    + destruct Hc as (rows & y & thd & _ & He & -> & -> & ->).
      by apply (chained_snoc _ _ _ _ _ _ _ _ IH).
    + destruct Hc as (-> & -> & ->). done.
Qed.

(** One call per epoch from the warm-up epoch on, none before. *)
Lemma run_calls_epochs (n : nat) (st : state) :
  run n = Ok st ->
  c_epoch <$> calls st = seq warmup_epoch (n - warmup_epoch).
Proof.
  revert st. induction n as [|n IH]; intros st.
  - by intros [= <-].
  - intros Hr. apply run_S_Ok in Hr as (st0 & Hr & Hb). specialize (IH _ Hr).
    apply epoch_body_Ok in Hb as (_ & _ & _ & _ & _ & Hc).
    destruct (Nat.leb_spec warmup_epoch n) as [Hle|Hlt].
    + destruct Hc as (rows & y & thd & _ & He & _ & _ & ->).
      rewrite fmap_app, IH. replace (S n - warmup_epoch) with (S (n - warmup_epoch)) by lia.
      rewrite seq_S. f_equal. unfold call_of. cbn [fmap list_fmap c_epoch].
      f_equal. lia.
    + destruct Hc as (_ & _ & ->). rewrite IH.
      by replace (S n - warmup_epoch) with (n - warmup_epoch) by lia.
Qed.

Lemma run_before_warmup (n : nat) (st : state) :
  run n = Ok st -> n <= warmup_epoch ->
  targets (trainset st) = labels0 w /\ current_thd st = initial_thd /\ calls st = [].
Proof.
  intros Hr Hn. pose proof (run_calls_epochs _ _ Hr) as Hc.
  replace (n - warmup_epoch) with 0 in Hc by lia. apply fmap_nil_inv in Hc.
  pose proof (run_chained _ _ Hr) as Hch. rewrite Hc in Hch. by destruct Hch.
Qed.

(** ** The selected slots and their average *)

Lemma gather_in_range (t : list matrix) (sel : list nat) :
  Forall (fun s => s < length t) sel ->
  gather t sel = Some ((fun s => default [] (t !! s)) <$> sel).
Proof.
  intros Hall. unfold gather. apply mapM_Some.
  induction Hall as [|s sel Hs _ IH]; simpl; constructor; [|done].
  destruct (lookup_lt_is_Some_2 t s Hs) as [m ->]. done.
Qed.

Lemma mean0_at (n c : nat) (rows : list matrix) (i j : nat) :
  i < n -> j < c ->
  at2 (mean0 n c rows) i j
  = (Qsum ((fun m => at2 m i j) <$> rows) / inject_Z (Z.of_nat (length rows)))%Q.
Proof.
  intros Hi Hj. unfold mean0, at2, at1.
  rewrite list_lookup_fmap, lookup_seq_lt by done. simpl.
  rewrite list_lookup_fmap, lookup_seq_lt by done. done.
Qed.

Lemma mean0_shape (n c : nat) (rows : list matrix) :
  length (mean0 n c rows) = n /\ Forall (fun r => length r = c) (mean0 n c rows).
Proof.
  unfold mean0. split; [by rewrite length_fmap, length_seq|].
  apply Forall_fmap, Forall_forall. intros i _. simpl.
  by rewrite length_fmap, length_seq.
Qed.

Hypothesis argsort_ok : forall v, ArgsortOf v (argsort v).

(** After every epoch [ind] names [top_k] distinct slots of the ledger. *)
Lemma run_ind (n : nat) (st : state) :
  run (S n) = Ok st ->
  ind st = py_last top_k (argsort (val_record st)) /\
  length (ind st) = top_k /\ NoDup (ind st) /\
  Forall (fun s => s < hist_depth) (ind st).
Proof.
  intros Hr. destruct (run_shapes _ _ Hr) as (_ & Hlen & _).
  apply run_S_Ok in Hr as (st0 & _ & Hb).
  apply epoch_body_Ok in Hb as (_ & _ & Hind & _).
  destruct (py_last_argsort (val_record st) (argsort (val_record st)) top_k)
    as (H1 & H2 & H3 & _); [done|rewrite Hlen; unfold top_k, hist_depth; lia|].
  rewrite Hind. repeat split; [done..|].
  apply Forall_forall. intros s Hs. rewrite <- Hlen. by apply H3.
Qed.

(** ** The prediction history buffer and the validation ledger *)

(** A slot is not used again during the next [hist_depth - 1] epochs. *)
Lemma slot_not_reused (e e' : nat) :
  S e <= e' < e + hist_depth -> e' mod hist_depth <> e mod hist_depth.
Proof.
  unfold hist_depth. intros He Hm.
  pose proof (Nat.Div0.div_mod e 30) as H1.
  pose proof (Nat.Div0.div_mod e' 30) as H2.
  rewrite Hm in H2. lia.
Qed.

(** Epochs that use other slots do not change what a slot holds. *)
Lemma last_visit_in_skip (n m s i : nat) :
  n <= m -> (forall e', n <= e' < m -> e' mod hist_depth <> s) ->
  last_visit_in m s i = last_visit_in n s i.
Proof.
  induction 1 as [|m Hle IH]; intros Hskip; [done|].
  cbn [last_visit_in]. rewrite decide_False.
  - apply IH. intros e' He'. apply Hskip. lia.
  - intros [Hm _]. apply (Hskip m); [lia|done].
Qed.

Hypothesis expQ_pos : forall x, (0 < expQ x)%Q.

(** C3 (amended): after the training pass of epoch [e], row [e mod 30] of the
    buffer holds, for every example the epoch's batches contain (the first
    [128 * (N / 128)] of the epoch's shuffled order: the loader is built with
    [drop_last = True]), the softmax vector the model produced for it in epoch
    [e]: as long as the logits, with entries in [0,1] that sum to 1.  The
    entry of an example outside the batches is the one the slot held before
    the epoch. *)
Theorem train_pass_records_visited (e : nat) (st0 st : state) (i : nat) :
  run e = Ok st0 -> run (S e) = Ok st -> i < n_train w ->
  visited e = take (batch_size * (length (shuffle w e) / batch_size)) (shuffle w e) /\
  (i ∈ visited e ->
     row_at (output_record st) (e mod hist_depth) i = Some (recorded_row e i) /\
     length (recorded_row e i) = length (logits w e i) /\
     (logits w e i <> [] -> is_distribution (recorded_row e i))) /\
  (i ∉ visited e ->
     row_at (output_record st) (e mod hist_depth) i
     = row_at (output_record st0) (e mod hist_depth) i).
Proof.
  intros Hr0 Hr Hi.
  assert (e mod hist_depth < hist_depth) as Hs
    by (apply Nat.mod_upper_bound; unfold hist_depth; lia).
  split; [apply visited_prefix|].
  rewrite (run_buffer _ _ _ _ Hr Hs Hi), (run_buffer _ _ _ _ Hr0 Hs Hi).
  cbn [last_visit_in]. split; intros Hv.
  - rewrite decide_True by done. split; [done|]. split.
    + apply softmax_row_length.
    + by apply softmax_row_distribution.
  - rewrite decide_False by tauto. done.
Qed.

(** C6 (amended): epoch [e] writes buffer slot [e mod 30] and ledger slot
    [e mod 30] and no other slot.  After epoch [e] and then epoch [e + 30],
    ledger slot [e mod 30] holds the accuracy of epoch [e + 30], and the
    buffer slot holds the row of epoch [e + 30] for every example that epoch
    visited; for an example it did not visit the slot still holds what it
    held after epoch [e]. *)
Theorem ring_slots_overwrite (e : nat) (st0 st1 st2 : state) :
  run e = Ok st0 -> run (S e) = Ok st1 -> run (S (e + hist_depth)) = Ok st2 ->
  (forall s, s <> e mod hist_depth ->
     output_record st1 !! s = output_record st0 !! s /\
     val_record st1 !! s = val_record st0 !! s) /\
  val_record st1 !! (e mod hist_depth) = Some (val_acc e) /\
  val_record st2 !! (e mod hist_depth) = Some (val_acc (e + hist_depth)) /\
  (forall i, i < n_train w ->
     (i ∈ visited (e + hist_depth) ->
        row_at (output_record st2) (e mod hist_depth) i
        = Some (recorded_row (e + hist_depth) i)) /\
     (i ∉ visited (e + hist_depth) ->
        row_at (output_record st2) (e mod hist_depth) i
        = row_at (output_record st1) (e mod hist_depth) i)).
Proof.
  intros Hr0 Hr1 Hr2.
  assert (e mod hist_depth < hist_depth) as Hs
    by (apply Nat.mod_upper_bound; unfold hist_depth; lia).
  assert ((e + hist_depth) mod hist_depth = e mod hist_depth) as Hmod.
  { replace (e + hist_depth) with (e + 1 * hist_depth) by lia.
    apply Nat.Div0.mod_add. }
  split; [|split; [|split]].
  - intros s Hne. pose proof Hr1 as Hb. apply run_S_Ok in Hb as (st & Hst & Hb).
    rewrite Hr0 in Hst. injection Hst as <-.
    apply epoch_body_Ok in Hb as (-> & -> & _). unfold record_after, ledger_after.
    split; [by apply list_lookup_alter_ne | by apply list_lookup_insert_ne].
  - rewrite (run_ledger _ _ _ Hr1 Hs). cbn [last_epoch_in].
    by rewrite decide_True.
  - rewrite (run_ledger _ _ _ Hr2 Hs). cbn [last_epoch_in].
    by rewrite decide_True.
  - intros i Hi. split; intros Hv.
    + rewrite (run_buffer _ _ _ _ Hr2 Hs Hi). cbn [last_visit_in].
      by rewrite decide_True.
    + rewrite (run_buffer _ _ _ _ Hr2 Hs Hi), (run_buffer _ _ _ _ Hr1 Hs Hi).
      do 2 f_equal.
      transitivity (last_visit_in (e + hist_depth) (e mod hist_depth) i).
      * cbn [last_visit_in]. rewrite decide_False by tauto. done.
      * apply last_visit_in_skip; [lia|].
        intros e' He'. by apply slot_not_reused.
Qed.

(** C10: the correction of epoch [e >= 40] finds every one of the 30 ledger
    slots written during this run, by one of the last 30 epochs; so does each
    of the 10 slots in [ind].  No slot read by the selection still holds the
    zero it was created with. *)
Theorem ledger_full_at_correction (e : nat) (st : state) :
  run (S e) = Ok st -> warmup_epoch <= e ->
  (forall s, s < hist_depth ->
     exists e', e' <= e < e' + hist_depth /\ e' mod hist_depth = s /\
                last_epoch_in (S e) s = Some e' /\
                val_record st !! s = Some (val_acc e')) /\
  (forall s, s ∈ ind st ->
     exists e', e' <= e < e' + hist_depth /\ e' mod hist_depth = s /\
                last_epoch_in (S e) s = Some e' /\
                val_record st !! s = Some (val_acc e')).
Proof.
  intros Hr He.
  assert (forall s, s < hist_depth ->
            exists e', e' <= e < e' + hist_depth /\ e' mod hist_depth = s /\
                       last_epoch_in (S e) s = Some e' /\
                       val_record st !! s = Some (val_acc e')) as Hall.
  { intros s Hs.
    destruct (last_epoch_in_recent (S e) s) as (e' & El & Hb & Hm); [|done|].
    { unfold hist_depth, warmup_epoch in *. lia. }
    exists e'. repeat split; [lia|lia|done|done|].
    rewrite (run_ledger _ _ _ Hr Hs), El. done. }
  split; [exact Hall|].
  intros s Hs. apply Hall.
  destruct (run_ind _ _ Hr) as (_ & _ & _ & Hin).
  by apply (proj1 (Forall_forall _ _) Hin).
Qed.

(** C7: the label array is the loaded one as long as no more than 40 epochs
    have run; the calls of the engine are one per epoch 40, 41, ... in this
    order; and after an epoch [e >= 40] the dataset holds the labels the
    engine returned in that epoch, which is what epoch [e + 1] starts from. *)
Theorem correction_from_warmup (n : nat) (st : state) :
  run n = Ok st ->
  (n <= warmup_epoch -> targets (trainset st) = labels0 w /\ calls st = []) /\
  c_epoch <$> calls st = seq warmup_epoch (n - warmup_epoch) /\
  (forall e st', n = S e -> warmup_epoch <= e -> run e = Ok st' ->
     exists c y thd,
       calls st = calls st' ++ [c] /\ c_epoch c = e /\
       c_labels c = np_copy (targets (trainset st')) /\
       ind st = py_last top_k (argsort (val_record st)) /\
       call_result c = Returned y thd /\
       trainset st = update_corrupted_label (trainset st') y /\
       targets (trainset st) = y).
Proof.
  intros Hr. split; [|split].
  - intros Hn. by destruct (run_before_warmup _ _ Hr Hn) as (? & _ & ?).
  - by apply run_calls_epochs.
  - intros e st' -> He Hr'. pose proof Hr as Hb.
    apply run_S_Ok in Hb as (st0 & Hst & Hb). rewrite Hr' in Hst. injection Hst as <-.
    apply epoch_body_Ok in Hb as (_ & _ & Hind & _ & _ & Hc).
    apply Nat.leb_le in He. rewrite He in Hc.
    destruct Hc as (rows & y & thd & _ & Hres & Hts & _ & Hcalls).
    exists (call_of e st' rows), y, thd. repeat split; try done.
    by rewrite Hts.
Qed.

(** C1 (amended): the labels passed to the engine are a copy of the
    dataset's current label array.  The first call (epoch 40) is given the
    labels as loaded; every later call is given the labels the call before it
    returned, which the driver had written back into the dataset. *)
Theorem engine_gets_current_labels (n : nat) (st : state) :
  run n = Ok st ->
  (forall c, calls st !! 0 = Some c ->
     c_epoch c = warmup_epoch /\ c_labels c = labels0 w) /\
  (forall j c c', calls st !! j = Some c -> calls st !! S j = Some c' ->
     c_epoch c' = S (c_epoch c) /\
     exists thd, call_result c = Returned (c_labels c') thd) /\
  (forall c, last (calls st) = Some c ->
     exists thd, call_result c = Returned (targets (trainset st)) thd).
Proof.
  intros Hr. pose proof (run_chained _ _ Hr) as Hch.
  pose proof (run_calls_epochs _ _ Hr) as Hep.
  assert (forall j c, calls st !! j = Some c -> c_epoch c = warmup_epoch + j) as Hj.
  { intros j c Hc.
    assert ((c_epoch <$> calls st) !! j = Some (c_epoch c)) as Hl
      by (by rewrite list_lookup_fmap, Hc).
    rewrite Hep in Hl. apply lookup_seq in Hl. lia. }
  split; [|split].
  - intros c Hc. split.
    + rewrite (Hj 0 c) by done. lia.
    + by destruct (chained_first _ _ _ _ _ _ Hch Hc).
  - intros j c c' Hc Hc'. split.
    + rewrite (Hj _ _ Hc), (Hj _ _ Hc'). lia.
    + exists (c_thd c'). by apply (chained_next _ _ _ _ _ _ _ _ Hch Hc Hc').
  - intros c Hc. exists (current_thd st). by apply (chained_last _ _ _ _ _ _ Hch).
Qed.

(** The matrix passed to the engine in epoch [e >= 40] is N by C and
    its entry for example [i] and class [j] is the sum over the 10 slots
    of [ind] (distinct slots of the buffer) of the buffer's entries for [i]
    and [j], divided by 10; it is computed from the buffer as epoch [e]
    left it. *)
Lemma average_of_selected_rows (e : nat) (st : state) :
  run (S e) = Ok st -> warmup_epoch <= e ->
  exists c,
    last (calls st) = Some c /\ c_epoch c = e /\
    ind st = py_last top_k (argsort (val_record st)) /\
    length (ind st) = top_k /\ NoDup (ind st) /\
    Forall (fun s => s < hist_depth) (ind st) /\
    length (c_avg c) = n_train w /\
    Forall (fun r => length r = num_class) (c_avg c) /\
    forall i j, i < n_train w -> j < num_class ->
      at2 (c_avg c) i j
      = (Qsum ((fun s => at3 (output_record st) s i j) <$> ind st)
         / inject_Z (Z.of_nat top_k))%Q.
Proof.
  intros Hr He. destruct (run_ind _ _ Hr) as (Hind & Hlen & Hnd & Hin).
  destruct (run_shapes _ _ Hr) as (Hrec & _).
  apply run_S_Ok in Hr as (st0 & _ & Hb).
  apply epoch_body_Ok in Hb as (_ & _ & _ & _ & _ & Hc).
  apply Nat.leb_le in He. rewrite He in Hc.
  destruct Hc as (rows & y & thd & Hg & _ & _ & _ & Hcalls).
  rewrite gather_in_range in Hg by (by rewrite Hrec). injection Hg as <-.
  exists (call_of e st0 ((fun s => default [] (output_record st !! s)) <$> ind st)).
  split; [by rewrite Hcalls, last_snoc|].
  split; [done|]. do 4 (split; [done|]).
  unfold call_of. cbn [c_avg]. split; [apply mean0_shape|].
  split; [apply mean0_shape|].
  intros i j Hi Hj. rewrite mean0_at by done.
  rewrite length_fmap, Hlen, <- list_fmap_compose. done.
Qed.

End Driver.

(** ** What the selected slots hold for one example *)

Section SelectedRows.
Variable expQ : Q -> Q.
Variable argsort : vector -> list nat.
Variable lrt_correction_fn : engine_type.
Variable w : world.
Hypothesis argsort_ok : forall v, ArgsortOf v (argsort v).
Hypothesis expQ_pos : forall x, (0 < expQ x)%Q.

(** The row slot [s] holds for example [i] after [n] epochs: the one
    recorded by the last epoch that used the slot and visited [i], or the
    zeros the buffer was created with. *)
Definition slot_row (n s i : nat) : vector :=
  from_option (fun e => recorded_row expQ w e i) (zeros1 num_class)
              (last_visit_in w n s i).

Lemma last_visit_of_last_epoch (n s i e' : nat) :
  last_epoch_in n s = Some e' -> i ∈ visited w e' ->
  last_visit_in w n s i = Some e'.
Proof.
  induction n as [|n IH]; cbn [last_epoch_in last_visit_in]; [done|].
  destruct (decide (n mod hist_depth = s)) as [E|E].
  - intros [= <-] Hv. by rewrite decide_True.
  - intros Hl Hv. rewrite decide_False by tauto. by apply IH.
Qed.

Lemma last_visit_before_last_epoch (n s i e' : nat) :
  last_epoch_in n s = Some e' -> i ∉ visited w e' ->
  last_visit_in w n s i = last_visit_in w e' s i.
Proof.
  intros Hl Hv. apply last_epoch_in_Some in Hl as (Hlt & Hm & Hmax).
  transitivity (last_visit_in w (S e') s i).
  - apply last_visit_in_skip; [lia|]. intros e'' He''. apply Hmax. lia.
  - cbn [last_visit_in]. rewrite decide_False by tauto. done.
Qed.

Lemma at3_row_at (t : list matrix) (s i j : nat) :
  at3 t s i j = at1 (default [] (row_at t s i)) j.
Proof. unfold at3, at2, row_at. by destruct (t !! s). Qed.

(** C8 (amended): the matrix passed to the engine in epoch [e >= 40] is N
    by C, and its entry for example [i] and class [j] is the mean over the 10
    distinct slots of [ind] of what each slot holds for [i].  Each selected
    slot [s] was last written by an epoch [e_s] of the last 30; it holds the
    softmax vector recorded for [i] in epoch [e_s] (as long as the logits,
    with entries in [0,1] that sum to 1) when that epoch's batches contained
    [i], and otherwise what it held for [i] before epoch [e_s] (an older
    epoch's vector, or the initial zeros). *)
Theorem average_of_recorded_rows (e : nat) (st : state) (i j : nat) :
  run expQ argsort lrt_correction_fn w (S e) = Ok st ->
  warmup_epoch <= e -> i < n_train w -> j < num_class ->
  exists c,
    last (calls st) = Some c /\ c_epoch c = e /\
    ind st = py_last top_k (argsort (val_record st)) /\
    length (ind st) = top_k /\ NoDup (ind st) /\
    length (c_avg c) = n_train w /\
    Forall (fun r => length r = num_class) (c_avg c) /\
    at2 (c_avg c) i j
    = (Qsum ((fun s => at1 (slot_row (S e) s i) j) <$> ind st)
       / inject_Z (Z.of_nat top_k))%Q /\
    forall s, s ∈ ind st ->
      exists e_s,
        last_epoch_in (S e) s = Some e_s /\ e_s <= e < e_s + hist_depth /\
        e_s mod hist_depth = s /\
        (i ∈ visited w e_s ->
           slot_row (S e) s i = recorded_row expQ w e_s i /\
           length (recorded_row expQ w e_s i) = length (logits w e_s i) /\
           (logits w e_s i <> [] -> is_distribution (recorded_row expQ w e_s i))) /\
        (i ∉ visited w e_s -> slot_row (S e) s i = slot_row e_s s i).
Proof.
  intros Hr He Hi Hj.
  destruct (average_of_selected_rows expQ argsort lrt_correction_fn w argsort_ok
              e st Hr He)
    as (c & Hlast & Hep & Hind & Hlen & Hnd & Hin & Hrows & Hcols & Havg).
  exists c. do 7 (split; [done|]). split.
  - rewrite (Havg i j Hi Hj). do 2 f_equal.
    apply list_fmap_ext. intros k s Hk. rewrite at3_row_at.
    assert (s < hist_depth) as Hs.
    { apply (proj1 (Forall_forall _ _) Hin). by apply list_elem_of_lookup_2 in Hk. }
    by rewrite (run_buffer _ _ _ _ _ _ _ _ Hr Hs Hi).
  - intros s Hs.
    assert (s < hist_depth) as Hslt by (by apply (proj1 (Forall_forall _ _) Hin)).
    destruct (last_epoch_in_recent (S e) s) as (e_s & El & Hb & Hm); [|done|].
    { unfold hist_depth, warmup_epoch in *. lia. }
    exists e_s. split; [done|]. split; [lia|]. split; [done|].
    unfold slot_row. split; intros Hv.
    + rewrite (last_visit_of_last_epoch _ _ _ _ El Hv). split; [done|]. split.
      * apply softmax_row_length.
      * by apply softmax_row_distribution.
    + by rewrite (last_visit_before_last_epoch _ _ _ _ El Hv).
Qed.

End SelectedRows.

(** ** The engine's decision per example *)

Lemma Qlt_bool_true (x y : Q) : Qlt_bool x y = true <-> (x < y)%Q.
Proof.
  unfold Qlt_bool. rewrite negb_true_iff. split.
  - intros Hb. apply Qnot_le_lt. intros Hle. apply Qle_bool_iff in Hle. congruence.
  - intros Hlt. destruct (Qle_bool y x) eqn:E; [|done].
    apply Qle_bool_iff in E. by apply Qlt_not_le in Hlt.
Qed.

Lemma Qlt_bool_false (x y : Q) : Qlt_bool x y = false <-> (y <= x)%Q.
Proof.
  unfold Qlt_bool. rewrite negb_false_iff. apply Qle_bool_iff.
Qed.

Lemma argmax_other_from_spec (a : nat) (row : vector) (c : nat)
  (best : option (nat * Q)) (b : nat) (xb : Q) :
  argmax_other_from a c row best = Some (b, xb) ->
  (forall b0 x0, best = Some (b0, x0) -> (x0 <= xb)%Q) /\
  (forall j x, row !! j = Some x -> c + j <> a -> (x <= xb)%Q) /\
  (best = Some (b, xb) \/ exists j, row !! j = Some xb /\ b = c + j /\ b <> a).
Proof.
  revert c best. induction row as [|x row IH]; intros c best; cbn [argmax_other_from].
  - intros ->. split; [|split; [done|by left]].
    intros b0 x0 [= -> ->]. apply Qle_refl.
  - intros Hrec. apply IH in Hrec as (H1 & H2 & H3).
    assert (forall j x', row !! j = Some x' -> c + S j <> a -> (x' <= xb)%Q) as H2'.
    { intros j x' Hj Hne. apply (H2 j); [done|lia]. }
    assert ((exists j, row !! j = Some xb /\ b = S c + j /\ b <> a) ->
            exists j, (x :: row) !! j = Some xb /\ b = c + j /\ b <> a) as H3'.
    { intros (j & Hj & -> & Hne). exists (S j). repeat split; [done|lia|lia]. }
    destruct (Nat.eqb_spec c a) as [->|Hca].
    + split; [done|]. split.
      * intros [|j] x' Hj Hne; [lia|]. by apply (H2' j).
      * destruct H3 as [|H3]; [by left|right; by apply H3'].
    + destruct best as [[b0 x0]|].
      * destruct (Qlt_bool x0 x) eqn:Ex.
        -- apply Qlt_bool_true in Ex. specialize (H1 c x eq_refl). split; [|split].
           ++ intros b1 x1 [= -> ->]. apply Qlt_le_weak. by apply Qlt_le_trans with x.
           ++ intros [|j] x' Hj Hne; [by injection Hj as <-|]. by apply (H2' j).
           ++ destruct H3 as [[= -> ->]|H3]; [|right; by apply H3'].
              right. exists 0. repeat split; [lia|lia].
        -- apply Qlt_bool_false in Ex. split; [done|]. split.
           ++ intros [|j] x' Hj Hne; [|by apply (H2' j)].
              injection Hj as <-. apply Qle_trans with x0; [done|]. by apply (H1 b0).
           ++ destruct H3 as [|H3]; [by left|right; by apply H3'].
      * specialize (H1 c x eq_refl). split; [done|]. split.
        -- intros [|j] x' Hj Hne; [by injection Hj as <-|]. by apply (H2' j).
        -- destruct H3 as [[= -> ->]|H3]; [|right; by apply H3'].
           right. exists 0. repeat split; [lia|lia].
Qed.

Lemma argmax_other_from_is_Some (a : nat) (row : vector) (c : nat)
  (best : option (nat * Q)) :
  is_Some best \/ (exists j, j < length row /\ c + j <> a) ->
  is_Some (argmax_other_from a c row best).
Proof.
  revert c best. induction row as [|x row IH]; intros c best; cbn [argmax_other_from].
  - intros [|(j & Hj & _)]; [done|simpl in Hj; lia].
  - intros Hor. apply IH. destruct (Nat.eqb_spec c a) as [->|Hca].
    + destruct Hor as [|(j & Hj & Hne)]; [by left|right].
      destruct j as [|j]; [lia|]. exists j. simpl in Hj. split; lia.
    + left. destruct best as [[b0 x0]|]; [|done]. by destruct (Qlt_bool x0 x).
Qed.

(** [best_other] is a class of the row other than [assigned], and no other
    class but [assigned] has a larger averaged probability. *)
Lemma argmax_other_Some (assigned : nat) (row : vector) (b : nat) :
  argmax_other assigned row = Some b ->
  b < length row /\ b <> assigned /\
  forall c, c < length row -> c <> assigned -> (at1 row c <= at1 row b)%Q.
Proof.
  unfold argmax_other. destruct (argmax_other_from _ _ _ _) as [[b' xb]|] eqn:E; [|done].
  intros [= <-]. apply argmax_other_from_spec in E as (_ & H2 & [|(j & Hj & -> & Hne)]);
    [done|].
  simpl in *. split; [by apply lookup_lt_Some in Hj|]. split; [done|].
  intros c Hc Hca. unfold at1. rewrite Hj.
  destruct (lookup_lt_is_Some_2 row c Hc) as [x Hx]. rewrite Hx. simpl.
  by apply (H2 c).
Qed.

Lemma argmax_other_is_Some (assigned : nat) (row : vector) :
  2 <= length row -> is_Some (argmax_other assigned row).
Proof.
  intros Hlen. unfold argmax_other. apply fmap_is_Some.
  apply argmax_other_from_is_Some. right.
  destruct assigned as [|a]; [exists 1|exists 0]; split; lia.
Qed.

(** C5: on labels and averages of one length, with every label a class of
    its row and at least two classes per row, the engine returns; its output
    has one label per example, decided from that example's label and row
    alone: with [best_other] the argmax over the classes other than the
    assigned one, the output is [best_other] when the margin exceeds the
    threshold and the assigned label otherwise. *)
Theorem lrt_correction_per_example (original_labels : list nat) (avg_probs : matrix)
  (current_threshold threshold_increment : Q) :
  length original_labels = length avg_probs ->
  (forall i y row, original_labels !! i = Some y -> avg_probs !! i = Some row ->
                   y < length row /\ 2 <= length row) ->
  exists revised_labels,
    lrt_correction original_labels avg_probs current_threshold threshold_increment
    = Returned revised_labels (Qmin (current_threshold + threshold_increment) 1) /\
    length revised_labels = length original_labels /\
    forall i assigned row,
      original_labels !! i = Some assigned -> avg_probs !! i = Some row ->
      exists best_other,
        argmax_other assigned row = Some best_other /\
        best_other < length row /\ best_other <> assigned /\
        (forall c, c < length row -> c <> assigned ->
                   (at1 row c <= at1 row best_other)%Q) /\
        lrt_one current_threshold assigned row = revised_labels !! i /\
        ((current_threshold < margin row assigned best_other)%Q ->
           revised_labels !! i = Some best_other) /\
        ((margin row assigned best_other <= current_threshold)%Q ->
           revised_labels !! i = Some assigned).
Proof.
  intros Hlen Hwf. unfold lrt_correction. rewrite Hlen, Nat.eqb_refl.
  assert (forall y row, y < length row -> 2 <= length row ->
            exists b, argmax_other y row = Some b /\
              lrt_one current_threshold y row
              = Some (if Qlt_bool current_threshold (margin row y b) then b else y))
    as Hone.
  { intros y row Hy Hrow. destruct (argmax_other_is_Some y row Hrow) as [b Hb].
    exists b. split; [done|]. unfold lrt_one. rewrite Hb.
    destruct (Nat.leb_spec (length row) y); [lia|done]. }
  destruct (mapM _ _) as [revised|] eqn:Em.
  - exists revised. split; [done|]. apply mapM_Some in Em.
    pose proof (Forall2_length _ _ _ Em) as Hl. rewrite length_zip in Hl.
    split; [lia|]. intros i y row Hy Hrow.
    destruct (Hwf _ _ _ Hy Hrow) as [Hyr Hr2].
    destruct (Hone y row Hyr Hr2) as (b & Hb & Hd). exists b.
    destruct (argmax_other_Some _ _ _ Hb) as (Hb1 & Hb2 & Hb3).
    do 4 (split; [done|]).
    assert (zip original_labels avg_probs !! i = Some (y, row)) as Hz.
    { apply lookup_zip_with_Some. by exists y, row. }
    destruct (Forall2_lookup_l _ _ _ _ _ Em Hz) as (r & Hr & Hf). simpl in Hf.
    rewrite Hr, <- Hf, Hd. split; [done|]. split.
    + intros Hlt. apply Qlt_bool_true in Hlt. by rewrite Hlt.
    + intros Hle. apply Qlt_bool_false in Hle. by rewrite Hle.
  - exfalso. apply mapM_None in Em. apply Exists_exists in Em as ([y row] & Hin & Hn).
    apply list_elem_of_lookup in Hin as [i Hi].
    apply lookup_zip_with_Some in Hi as (y' & row' & [= <- <-] & Hy & Hrow).
    destruct (Hwf _ _ _ Hy Hrow) as [Hyr Hr2].
    destruct (Hone y row Hyr Hr2) as (b & _ & Hd). simpl in Hn. congruence.
Qed.

(** The threshold the engine hands back. *)
Lemma lrt_correction_thd (l : list nat) (m : matrix) (t d : Q) (y : list nat) (t' : Q) :
  lrt_correction l m t d = Returned y t' -> t' = Qmin (t + d) 1.
Proof.
  unfold lrt_correction. destruct (_ =? _); [|done].
  destruct (mapM _ _); [|done]. by intros [= _ <-].
Qed.

(** ** The threshold along a run with the engine of the spec *)

Section Threshold.
Variable expQ : Q -> Q.
Variable argsort : vector -> list nat.
Variable w : world.

Abbreviation run_lrt := (run expQ argsort lrt_correction w).

Lemma run_thd_step (e : nat) (st st' : state) :
  run_lrt e = Ok st -> run_lrt (S e) = Ok st' ->
  current_thd st' = if warmup_epoch <=? e
                    then Qmin (current_thd st + thd_increment) 1
                    else current_thd st.
Proof.
  intros Hr Hr'. apply run_S_Ok in Hr' as (st0 & Hst & Hb).
  rewrite Hr in Hst. injection Hst as <-.
  apply epoch_body_Ok in Hb as (_ & _ & _ & _ & _ & Hc).
  destruct (warmup_epoch <=? e).
  - destruct Hc as (rows & y & thd & _ & Hres & _ & -> & _).
    by apply lrt_correction_thd in Hres.
  - by destruct Hc as (_ & -> & _).
Qed.

Lemma run_thd_le_1 (n : nat) (st : state) :
  run_lrt n = Ok st -> (current_thd st <= 1)%Q.
Proof.
  revert st. induction n as [|n IH]; intros st Hr.
  - injection Hr as <-. done.
  - destruct (run_Ok_le _ _ _ _ n _ _ Hr) as [st0 Hr0]; [lia|].
    rewrite (run_thd_step _ _ _ Hr0 Hr). destruct (warmup_epoch <=? n).
    + apply Q.le_min_r.
    + by apply IH.
Qed.

(** C4: with the engine of the spec, the threshold the driver holds never
    decreases from one epoch to a later one and never exceeds 1; every
    correction (epochs 40 and later) replaces it by
    [min(current_thd + thd_increment, 1)], with the increment 0.1 and the
    first threshold 0.3. *)
Theorem threshold_monotone_capped (n m : nat) (st_n st_m : state) :
  run_lrt n = Ok st_n -> run_lrt m = Ok st_m -> n <= m ->
  (current_thd st_n <= current_thd st_m)%Q /\ (current_thd st_m <= 1)%Q /\
  (0 < thd_increment)%Q /\
  (forall st0, run_lrt 0 = Ok st0 -> current_thd st0 = (3 # 10)%Q) /\
  (forall e st st', warmup_epoch <= e -> run_lrt e = Ok st -> run_lrt (S e) = Ok st' ->
     current_thd st' = Qmin (current_thd st + (1 # 10)) 1).
Proof.
  intros Hn Hm Hle. split; [|split; [by apply (run_thd_le_1 m)|split; [done|split]]].
  - revert st_m Hm. induction Hle as [|m Hle IH]; intros st_m Hm.
    + rewrite Hn in Hm. injection Hm as <-. apply Qle_refl.
    + destruct (run_Ok_le _ _ _ _ m _ _ Hm) as [st0 Hr0]; [lia|].
      apply Qle_trans with (current_thd st0); [by apply IH|].
      rewrite (run_thd_step _ _ _ Hr0 Hm). destruct (warmup_epoch <=? m).
      * apply Q.min_glb; [|by apply (run_thd_le_1 m)].
        rewrite <- (Qplus_0_r (current_thd st0)) at 1.
        apply Qplus_le_compat; [apply Qle_refl|done].
      * apply Qle_refl.
  - by intros st0 [= <-].
  - intros e st st' He Hr Hr'. rewrite (run_thd_step _ _ _ Hr Hr').
    apply Nat.leb_le in He. by rewrite He.
Qed.

End Threshold.

(** ** The threshold in binary64

    The threshold of [main] does not depend on the data: it is 0.3 (the
    double nearest to it) when the loop starts and every correction replaces
    it by [min(current_thd + 0.1, 1.0)].  In binary64 arithmetic the values
    are 0.3, 0.4, 0.5, 0.6, 0.7, then three values one rounding below 0.8,
    0.9 and 1.0, then 1.0 for ever. *)

Module Binary64.

Definition f_thd0 : float := 0x1.3333333333333p-2%float.  (* 0.3 *)
Definition f_inc : float := 0x1.999999999999ap-4%float.   (* 0.1 *)

(** [min(a, b)] of Python on two floats: [b] when [b < a], else [a]. *)
Definition py_min (a b : float) : float := if PrimFloat.ltb b a then b else a.

Definition next_thd (t : float) : float := py_min (PrimFloat.add t f_inc) 1%float.

(** The threshold after [k] corrections. *)
Definition thd_after (k : nat) : float := Nat.iter k next_thd f_thd0.

Lemma thd_after_S (k : nat) : thd_after (S k) = next_thd (thd_after k).
Proof. reflexivity. Qed.

Lemma thd_after_saturates (k : nat) : thd_after (8 + k) = 1%float.
Proof.
  induction k as [|k IH].
  - vm_compute. reflexivity.
  - replace (8 + S k) with (S (8 + k)) by lia.
    rewrite thd_after_S, IH. vm_compute. reflexivity.
Qed.

(** In binary64 too the threshold never decreases and never exceeds 1. *)
Lemma thd_float_monotone_capped (k : nat) :
  PrimFloat.leb (thd_after k) (thd_after (S k)) = true /\
  PrimFloat.leb (thd_after (S k)) 1%float = true.
Proof.
  destruct (Nat.le_gt_cases 8 k) as [Hk|Hk].
  - replace (S k) with (8 + S (k - 8)) by lia.
    replace k with (8 + (k - 8)) at 1 by lia.
    rewrite !thd_after_saturates. split; vm_compute; reflexivity.
  - do 8 (destruct k as [|k]; [split; vm_compute; reflexivity|]). lia.
Qed.

End Binary64.

(** ** The selection [np.argsort(val_record)[-k:]] *)

(** C2 (amended): for every ledger [v], every result [p] that [np.argsort]
    may return for it and every [k] from 1 to the number of slots,
    [p[-k:]] consists of [k] distinct slots, in ascending order of stored
    value, and no slot left out holds a larger value than a selected one.
    When the stored values are all distinct the selection is the same for
    every admissible [p], and every slot left out holds a strictly smaller
    value than every selected one. *)
Theorem topk_selects_highest (v : vector) (p : list nat) (k : nat) :
  ArgsortOf v p -> 1 <= k <= length v ->
  length (py_last k p) = k /\ NoDup (py_last k p) /\
  (forall i, i ∈ py_last k p -> i < length v) /\
  StronglySorted (ascending_at v) (py_last k p) /\
  (forall i j, i ∈ py_last k p -> j < length v -> j ∉ py_last k p ->
               (at1 v j <= at1 v i)%Q) /\
  (distinct_values v ->
     (forall p', ArgsortOf v p' -> py_last k p' = py_last k p) /\
     (forall i j, i ∈ py_last k p -> j < length v -> j ∉ py_last k p ->
                  (at1 v j < at1 v i)%Q)).
Proof.
  intros Hp Hk. destruct (py_last_argsort v p k Hp Hk) as (H1 & H2 & H3 & H4 & H5).
  do 5 (split; [done|]). intros Hd. split.
  - intros p' Hp'. by rewrite (ArgsortOf_unique v p' p Hd Hp' Hp).
  - intros i j Hi Hj Hnj. pose proof (H5 i j Hi Hj Hnj) as Hle.
    apply Qle_lteq in Hle as [|Heq]; [done|]. exfalso.
    apply Hd in Heq; [|done|by apply H3]. by subst.
Qed.

(** ** The correction call on Python objects

    The label array of the dataset and the array handed to the engine are
    objects in a store; an engine may write into the array it is given and
    allocate new arrays.  [np.array(trainset.targets).copy()] allocates the
    argument; [update_corrupted_label] overwrites the dataset's array with the
    returned one. *)

Module Store.

Abbreviation store := (gmap nat (list nat)).

(** A new array object holding [a]. *)
Definition alloc (h : store) (a : list nat) : store * nat :=
  let l := fresh (dom h) in (<[l := a]> h, l).

(** An engine on the store: from the location of its label argument, the new
    store and either the location of [y_corrected] with the new threshold, or
    [None] when it raised. *)
Definition heap_engine := nat -> matrix -> Q -> Q -> store -> store * option (nat * Q).

(** Lines 140 and 141, for a dataset whose label array lives at [tl]. *)
Definition correction_call (engine : heap_engine) (tl : nat) (avg : matrix) (thd : Q)
  (h : store) : store * option Q :=
  match h !! tl with
  | None => (h, None)
  | Some labels =>
      let '(h1, arg) := alloc h labels in
      match engine arg avg thd thd_increment h1 with
      | (h2, None) => (h2, None)
      | (h2, Some (yl, thd')) =>
          match h2 !! yl with
          | Some y_corrected => (<[tl := y_corrected]> h2, Some thd')
          | None => (h2, None)
          end
      end
  end.

(** The same two lines without the copy, for comparison. *)
Definition correction_call_aliased (engine : heap_engine) (tl : nat) (avg : matrix)
  (thd : Q) (h : store) : store * option Q :=
  match engine tl avg thd thd_increment h with
  | (h2, None) => (h2, None)
  | (h2, Some (yl, thd')) =>
      match h2 !! yl with
      | Some y_corrected => (<[tl := y_corrected]> h2, Some thd')
      | None => (h2, None)
      end
  end.

(** An engine has no reference but the one to its argument: arrays that
    exist when it is called, other than the argument, keep their cells. *)
Definition frames (engine : heap_engine) : Prop :=
  forall arg avg thd inc h h' r l,
    engine arg avg thd inc h = (h', r) -> l <> arg -> l ∈ dom h -> h' !! l = h !! l.

(** A pure engine run on the store: reads its argument, allocates the result. *)
Definition lift (f : engine_type) : heap_engine :=
  fun arg avg thd inc h =>
    match h !! arg with
    | None => (h, None)
    | Some labels =>
        match f labels avg thd inc with
        | Returned y thd' => let '(h', yl) := alloc h y in (h', Some (yl, thd'))
        | Raises => (h, None)
        end
    end.

(** An engine that relabels in place, example by example, and raises as
    soon as a row has no class for the label: what it wrote stays written. *)
Fixpoint relabel_in_place (thd : Q) (i : nat) (labels : list nat) (avg : matrix)
  (acc : list nat) : list nat * bool :=
  match labels, avg with
  | y :: labels', row :: avg' =>
      match lrt_one thd y row with
      | Some y' => relabel_in_place thd (S i) labels' avg' (<[i := y']> acc)
      | None => (acc, false)
      end
  | [], [] => (acc, true)
  | _, _ => (acc, false)
  end.

Definition in_place_engine : heap_engine :=
  fun arg avg thd inc h =>
    match h !! arg with
    | None => (h, None)
    | Some labels =>
        let '(out, ok) := relabel_in_place thd 0 labels avg labels in
        let h' := <[arg := out]> h in
        if ok then (h', Some (arg, Qmin (thd + inc) 1)) else (h', None)
    end.

Lemma alloc_fresh (h : store) (a : list nat) (h1 : store) (l : nat) :
  alloc h a = (h1, l) ->
  (l ∉ dom h) /\ h1 !! l = Some a /\
  forall l', l' ∈ dom h -> l' <> l /\ h1 !! l' = h !! l'.
Proof.
  unfold alloc. intros [= <- <-]. pose proof (is_fresh (dom h)) as Hf.
  split; [done|]. split; [by rewrite lookup_insert_eq|].
  intros l' Hl'. assert (l' <> fresh (dom h)) as Hne by (intros ->; done).
  split; [done|]. by rewrite lookup_insert_ne.
Qed.

Lemma lift_frames (f : engine_type) : frames (lift f).
Proof.
  intros arg avg thd inc h h' r l. unfold lift.
  destruct (h !! arg) as [labels|]; [|by intros [= <- <-]].
  destruct (f labels avg thd inc) as [y thd'|]; [|by intros [= <- <-]].
  destruct (alloc h y) as [h1 yl] eqn:Ea. intros [= <- <-] _ Hl.
  by destruct (proj2 (proj2 (alloc_fresh _ _ _ _ Ea)) l Hl).
Qed.

Lemma in_place_engine_frames : frames in_place_engine.
Proof.
  intros arg avg thd inc h h' r l. unfold in_place_engine.
  destruct (h !! arg) as [labels|]; [|by intros [= <- <-]].
  destruct (relabel_in_place _ _ _ _ _) as [out ok].
  destruct ok; intros [= <- <-] Hne _; by rewrite lookup_insert_ne.
Qed.

(** C9: whatever an engine that only holds its argument does to the store,
    a correction call that does not return a threshold (the engine raised)
    leaves the dataset's label array as it was; the array is changed only
    when the engine has returned, and then to the returned array as a whole.
    Until that overwrite the engine has worked on the copy. *)
Theorem failed_correction_keeps_labels (engine : heap_engine) (tl : nat)
  (avg : matrix) (thd : Q) (h h' : store) (r : option Q) :
  frames engine -> tl ∈ dom h ->
  correction_call engine tl avg thd h = (h', r) ->
  match r with
  | None => h' !! tl = h !! tl
  | Some thd' =>
      exists labels h1 arg h2 yl y_corrected,
        h !! tl = Some labels /\ alloc h labels = (h1, arg) /\ arg <> tl /\
        engine arg avg thd thd_increment h1 = (h2, Some (yl, thd')) /\
        h2 !! tl = Some labels /\
        h2 !! yl = Some y_corrected /\ h' = <[tl := y_corrected]> h2 /\
        h' !! tl = Some y_corrected
  end.
Proof.
  intros Hfr Htl. unfold correction_call.
  destruct (h !! tl) as [labels|] eqn:El; [|by intros [= <- <-]].
  destruct (alloc h labels) as [h1 arg] eqn:Ea.
  destruct (alloc_fresh _ _ _ _ Ea) as (Hfresh & Harg & Hold).
  destruct (Hold tl Htl) as [Hne H1].
  assert (tl ∈ dom h1) as Htl1 by (apply elem_of_dom; rewrite H1, El; by eexists).
  destruct (engine arg avg thd thd_increment h1) as [h2 res] eqn:Ee.
  pose proof (Hfr _ _ _ _ _ _ _ tl Ee Hne Htl1) as H2.
  destruct res as [[yl thd']|].
  - destruct (h2 !! yl) as [y|] eqn:Ey.
    + intros [= <- <-]. exists labels, h1, arg, h2, yl, y.
      split; [done|]. split; [done|]. split; [congruence|]. split; [done|].
      split; [by rewrite H2, H1|]. split; [done|]. split; [done|].
      by rewrite lookup_insert_eq.
    + intros [= <- <-]. by rewrite H2, H1.
  - intros [= <- <-]. by rewrite H2, H1.
Qed.

(** The call on the store does what [correction] does with the pure engine. *)
Lemma correction_call_lift (f : engine_type) (tl : nat) (avg : matrix) (thd : Q)
  (h : store) (labels : list nat) :
  h !! tl = Some labels ->
  match f (np_copy labels) avg thd thd_increment with
  | Returned y thd' =>
      exists h', correction_call (lift f) tl avg thd h = (h', Some thd') /\
                 h' !! tl = Some (targets (update_corrupted_label {| targets := labels |} y))
  | Raises =>
      exists h', correction_call (lift f) tl avg thd h = (h', None) /\
                 h' !! tl = Some labels
  end.
Proof.
  intros El. unfold correction_call, lift, np_copy. rewrite El.
  destruct (alloc h labels) as [h1 arg] eqn:Ea.
  destruct (alloc_fresh _ _ _ _ Ea) as (Hfresh & Harg & Hold).
  assert (tl ∈ dom h) as Htl by (apply elem_of_dom; by eexists).
  destruct (Hold tl Htl) as [Hne H1]. rewrite Harg.
  destruct (f labels avg thd thd_increment) as [y thd'|].
  - destruct (alloc h1 y) as [h2 yl] eqn:Ey.
    destruct (alloc_fresh _ _ _ _ Ey) as (_ & Hy & _). rewrite Hy.
    eexists. split; [done|]. by rewrite lookup_insert_eq.
  - eexists. split; [done|]. by rewrite H1.
Qed.

End Store.

(** ** A concrete run, used to evaluate the model *)

Module Sample.

(** A positive stand-in for the exponential: 2 to the integer part. *)
Definition exp2 (x : Q) : Q := Qpower 2 (Qfloor x).

(** 129 examples, all labelled 0; the model favours class 1 and its third
    logit grows every 16 epochs; epoch 0 visits the examples in the order
    128, 0, 1, ..., every other epoch in index order; the validation accuracy
    repeats with period 7. *)
Definition sample_world : world :=
  {| n_train := 129;
     labels0 := replicate 129 0;
     shuffle := fun e => if e =? 0 then 128 :: seq 0 128 else seq 0 129;
     logits := fun e i => [0; 4; inject_Z (Z.of_nat (e / 16))]%Q ++ replicate 7 0%Q;
     val_correct := fun e => 10 * (e mod 7);
     val_total := 100 |}.

Abbreviation sample_run := (run exp2 argsort_stable lrt_correction sample_world).

Definition state_after (n : nat) : state :=
  match sample_run n with Ok st => st | Raise _ st => st end.

(** The state after [n] epochs when the run got that far. *)
Definition after (n : nat) : option state :=
  match sample_run n with Ok st => Some st | Raise _ _ => None end.

(** The ledger after a first epoch with 50% validation accuracy. *)
Definition first_epoch_ledger : vector := 50%Q :: replicate 29 0%Q.

(** A store with one dataset whose second label, 7, is no class of its row. *)
Definition bad_store : Store.store := {[ 0 := [0; 7] ]}.
Definition two_rows : matrix :=
  [[2 # 10; 75 # 100; 5 # 100]; [2 # 10; 75 # 100; 5 # 100]]%Q.

Lemma exp2_pos (x : Q) : (0 < exp2 x)%Q.
Proof. unfold exp2. by apply Qpower_0_lt. Qed.

Lemma sample_run_0 : sample_run 0 = Ok (state_after 0).
Proof. reflexivity. Qed.

Lemma sample_run_1 : sample_run 1 = Ok (state_after 1).
Proof. vm_compute. reflexivity. Qed.

Lemma sample_run_31 : sample_run 31 = Ok (state_after 31).
Proof. vm_compute. reflexivity. Qed.

Lemma sample_run_40 : sample_run 40 = Ok (state_after 40).
Proof. vm_compute. reflexivity. Qed.

Lemma sample_run_41 : sample_run 41 = Ok (state_after 41).
Proof. vm_compute. reflexivity. Qed.

Lemma sample_run_42 : sample_run 42 = Ok (state_after 42).
Proof. vm_compute. reflexivity. Qed.

End Sample.

(** ** The theorems at the concrete run, and the inputs on which the
       statements of the spec fail *)

Import Sample.

Lemma sample_visits_5 : 5 ∈ visited sample_world 0.
Proof. apply list_elem_of_lookup. by exists 6. Qed.

Lemma sample_drops_127 : 127 ∉ visited sample_world 0.
Proof. apply (bool_decide_unpack _). by vm_compute. Qed.

Lemma sample_visits_5_again : 5 ∈ visited sample_world (0 + hist_depth).
Proof. apply list_elem_of_lookup. by exists 5. Qed.

Lemma sample_run_ring :
  run exp2 argsort_stable lrt_correction sample_world (S (0 + hist_depth))
  = Ok (state_after 31).
Proof. vm_compute. reflexivity. Qed.

Lemma sample_drops_128 : 128 ∉ visited sample_world (0 + hist_depth).
Proof. apply (bool_decide_unpack _). by vm_compute. Qed.

Lemma train_pass_records_visited_witness :
  row_at (output_record (state_after 1)) (0 mod hist_depth) 5
  = Some (recorded_row exp2 sample_world 0 5) /\
  is_distribution (recorded_row exp2 sample_world 0 5) /\
  row_at (output_record (state_after 1)) (0 mod hist_depth) 127
  = row_at (output_record (state_after 0)) (0 mod hist_depth) 127.
Proof.
  destruct (train_pass_records_visited exp2 argsort_stable lrt_correction
              sample_world exp2_pos 0 (state_after 0) (state_after 1) 5
              sample_run_0 sample_run_1 ltac:(simpl; lia)) as (_ & Hv & _).
  destruct (train_pass_records_visited exp2 argsort_stable lrt_correction
              sample_world exp2_pos 0 (state_after 0) (state_after 1) 127
              sample_run_0 sample_run_1 ltac:(simpl; lia)) as (_ & _ & Hn).
  destruct (Hv sample_visits_5) as (Hrow & _ & Hd).
  split; [exact Hrow|]. split; [apply Hd; discriminate|]. exact (Hn sample_drops_127).
Defined.

(** C3, as the spec states it, fails: with 129 examples and batches of 128
    the example the sampler puts last in epoch 0 (here 127) is in no batch;
    after the epoch its row in slot 0 is still the zero row the buffer was
    created with, which is no probability vector. *)
Lemma dropped_example_row_stays_zero :
  127 < n_train sample_world /\
  sample_run 1 = Ok (state_after 1) /\
  row_at (output_record (state_after 1)) (0 mod hist_depth) 127
  = Some (zeros1 num_class) /\
  ~ is_distribution (zeros1 num_class).
Proof.
  split; [simpl; lia|]. split; [exact sample_run_1|]. split; [by vm_compute|].
  intros [_ Hsum]. vm_compute in Hsum. discriminate.
Qed.

Lemma ring_slots_overwrite_witness :
  val_record (state_after 31) !! (0 mod hist_depth)
  = Some (val_acc sample_world (0 + hist_depth)) /\
  row_at (output_record (state_after 31)) (0 mod hist_depth) 5
  = Some (recorded_row exp2 sample_world (0 + hist_depth) 5) /\
  row_at (output_record (state_after 31)) (0 mod hist_depth) 128
  = row_at (output_record (state_after 1)) (0 mod hist_depth) 128.
Proof.
  destruct (ring_slots_overwrite exp2 argsort_stable lrt_correction sample_world 0
              (state_after 0) (state_after 1) (state_after 31)
              sample_run_0 sample_run_1 sample_run_ring) as (_ & _ & Hl & Hrows).
  destruct (Hrows 5 ltac:(simpl; lia)) as [Hv _].
  destruct (Hrows 128 ltac:(simpl; lia)) as [_ Hn].
  split; [exact Hl|].
  split; [exact (Hv sample_visits_5_again)|exact (Hn sample_drops_128)].
Defined.

(** C6, as the spec states it, fails in its second half: example 128 is
    visited in epoch 0 and left out of the batches of epoch 30; after epoch
    30 its row in slot 0 is still the one epoch 0 recorded, which differs
    from the one the model produced in epoch 30. *)
Lemma row_of_unvisited_example_survives :
  sample_run 1 = Ok (state_after 1) /\
  run exp2 argsort_stable lrt_correction sample_world (S (0 + hist_depth))
  = Ok (state_after 31) /\
  128 < n_train sample_world /\
  row_at (output_record (state_after 31)) (0 mod hist_depth) 128
  = Some (recorded_row exp2 sample_world 0 128) /\
  ~ (at1 (recorded_row exp2 sample_world 0 128) 0
     == at1 (recorded_row exp2 sample_world (0 + hist_depth) 128) 0)%Q.
Proof.
  split; [exact sample_run_1|]. split; [exact sample_run_ring|].
  split; [simpl; lia|]. split; [by vm_compute|].
  intros Heq. vm_compute in Heq. discriminate.
Qed.

Lemma ledger_full_at_correction_witness :
  exists e', e' <= 41 < e' + hist_depth /\ e' mod hist_depth = 3 /\
             last_epoch_in 42 3 = Some e' /\
             val_record (state_after 42) !! 3 = Some (val_acc sample_world e').
Proof.
  destruct (ledger_full_at_correction exp2 argsort_stable lrt_correction
              sample_world argsort_stable_ok 41 (state_after 42) sample_run_42
              ltac:(unfold warmup_epoch; lia)) as [Hall _].
  exact (Hall 3 ltac:(unfold hist_depth; lia)).
Defined.

Lemma correction_from_warmup_witness :
  c_epoch <$> calls (state_after 42) = seq warmup_epoch (42 - warmup_epoch) /\
  exists c y thd,
    calls (state_after 42) = calls (state_after 41) ++ [c] /\ c_epoch c = 41 /\
    c_labels c = np_copy (targets (trainset (state_after 41))) /\
    ind (state_after 42) = py_last top_k (argsort_stable (val_record (state_after 42))) /\
    call_result lrt_correction c = Returned y thd /\
    trainset (state_after 42) = update_corrupted_label (trainset (state_after 41)) y /\
    targets (trainset (state_after 42)) = y.
Proof.
  destruct (correction_from_warmup exp2 argsort_stable lrt_correction sample_world
              42 (state_after 42) sample_run_42) as (_ & Hep & Hstep).
  split; [exact Hep|].
  exact (Hstep 41 (state_after 41) eq_refl ltac:(unfold warmup_epoch; lia)
           sample_run_41).
Defined.

Lemma engine_gets_current_labels_witness :
  (forall c, calls (state_after 42) !! 0 = Some c ->
     c_epoch c = warmup_epoch /\ c_labels c = labels0 sample_world) /\
  (forall j c c', calls (state_after 42) !! j = Some c ->
     calls (state_after 42) !! S j = Some c' ->
     c_epoch c' = S (c_epoch c) /\
     exists thd, call_result lrt_correction c = Returned (c_labels c') thd) /\
  (forall c, last (calls (state_after 42)) = Some c ->
     exists thd, call_result lrt_correction c
                 = Returned (targets (trainset (state_after 42))) thd).
Proof.
  exact (engine_gets_current_labels exp2 argsort_stable lrt_correction sample_world
           42 (state_after 42) sample_run_42).
Defined.

(** C1, as the spec states it, fails: the call of epoch 41 is given the
    labels the call of epoch 40 wrote back (class 1 for the first 128
    examples), not the labels the dataset was loaded with (all 0). *)
Lemma second_call_gets_corrected_labels :
  sample_run 42 = Ok (state_after 42) /\
  c_epoch <$> calls (state_after 42) !! 1 = Some 41 /\
  c_labels <$> calls (state_after 42) !! 1 = Some (replicate 128 1 ++ [0]) /\
  labels0 sample_world = replicate 129 0 /\
  c_labels <$> calls (state_after 42) !! 1 <> Some (labels0 sample_world).
Proof.
  split; [exact sample_run_42|]. split; [by vm_compute|]. split; [by vm_compute|].
  split; [done|]. intros Heq. vm_compute in Heq. discriminate.
Qed.

Lemma average_of_recorded_rows_witness :
  exists c,
    last (calls (state_after 42)) = Some c /\ c_epoch c = 41 /\
    ind (state_after 42) = py_last top_k (argsort_stable (val_record (state_after 42))) /\
    length (ind (state_after 42)) = top_k /\ NoDup (ind (state_after 42)) /\
    length (c_avg c) = n_train sample_world /\
    Forall (fun r => length r = num_class) (c_avg c) /\
    at2 (c_avg c) 5 1
    = (Qsum ((fun s => at1 (slot_row exp2 sample_world 42 s 5) 1)
               <$> ind (state_after 42))
       / inject_Z (Z.of_nat top_k))%Q /\
    forall s, s ∈ ind (state_after 42) ->
      exists e_s,
        last_epoch_in 42 s = Some e_s /\ e_s <= 41 < e_s + hist_depth /\
        e_s mod hist_depth = s /\
        (5 ∈ visited sample_world e_s ->
         slot_row exp2 sample_world 42 s 5 = recorded_row exp2 sample_world e_s 5 /\
         length (recorded_row exp2 sample_world e_s 5)
         = length (logits sample_world e_s 5) /\
         (logits sample_world e_s 5 <> [] ->
          is_distribution (recorded_row exp2 sample_world e_s 5))) /\
        (5 ∉ visited sample_world e_s ->
         slot_row exp2 sample_world 42 s 5 = slot_row exp2 sample_world e_s s 5).
Proof.
  exact (average_of_recorded_rows exp2 argsort_stable lrt_correction sample_world
           argsort_stable_ok exp2_pos 41 (state_after 42) 5 1 sample_run_42
           ltac:(unfold warmup_epoch; lia) ltac:(simpl; lia)
           ltac:(unfold num_class; lia)).
Defined.

(** C8, as the spec states it, fails: in epoch 41 the ten selected slots
    were last written by the epochs 33, 40, 12, 19, 26, 34, 41, 13, 20 and
    27, none of which had example 128 in a batch (the loader drops it); the
    engine is given the zero row for it, which sums to 0 and is no mean of
    probability vectors, while the mean of the vectors the model assigns to
    it in those epochs is positive in class 1. *)
Lemma dropped_example_average_is_zero :
  sample_run 42 = Ok (state_after 42) /\
  128 < n_train sample_world /\
  (fun s => last_epoch_in 42 s) <$> ind (state_after 42)
  = Some <$> [33; 40; 12; 19; 26; 34; 41; 13; 20; 27] /\
  (fun s => bool_decide (128 ∈ visited sample_world (default 0 (last_epoch_in 42 s))))
    <$> ind (state_after 42) = replicate 10 false /\
  (default 1 ((fun c => at2 (c_avg c) 128 1) <$> last (calls (state_after 42))) == 0)%Q /\
  (default 1 ((fun c => Qsum (default [] (c_avg c !! 128%nat)))
                <$> last (calls (state_after 42))) == 0)%Q /\
  (0 < Qsum ((fun s => at1 (recorded_row exp2 sample_world
                              (default 0%nat (last_epoch_in 42 s)) 128) 1)
               <$> ind (state_after 42))
       / inject_Z (Z.of_nat top_k))%Q.
Proof.
  split; [exact sample_run_42|]. split; [simpl; lia|].
  split; [by vm_compute|]. split; [by vm_compute|].
  split; [by vm_compute|]. split; by vm_compute.
Qed.


Lemma threshold_monotone_capped_witness :
  (current_thd (state_after 40) <= current_thd (state_after 42))%Q /\
  (current_thd (state_after 42) <= 1)%Q /\
  current_thd (state_after 42)
  = Qmin (current_thd (state_after 41) + (1 # 10)) 1.
Proof.
  destruct (threshold_monotone_capped exp2 argsort_stable sample_world 40 42
              (state_after 40) (state_after 42) sample_run_40 sample_run_42
              ltac:(lia)) as (Hmono & Hcap & _ & _ & Hstep).
  split; [exact Hmono|]. split; [exact Hcap|].
  exact (Hstep 41 (state_after 41) (state_after 42)
           ltac:(unfold warmup_epoch; lia) sample_run_41 sample_run_42).
Defined.

Lemma lrt_correction_per_example_witness :
  exists revised_labels,
    lrt_correction [0] [[2 # 10; 75 # 100; 5 # 100]]%Q (3 # 10)%Q (1 # 10)%Q
    = Returned revised_labels (Qmin ((3 # 10) + (1 # 10)) 1)%Q /\
    length revised_labels = length [0] /\
    forall i assigned row,
      [0] !! i = Some assigned -> [[2 # 10; 75 # 100; 5 # 100]]%Q !! i = Some row ->
      exists best_other,
        argmax_other assigned row = Some best_other /\
        best_other < length row /\ best_other <> assigned /\
        (forall c, c < length row -> c <> assigned ->
                   (at1 row c <= at1 row best_other)%Q) /\
        lrt_one (3 # 10)%Q assigned row = revised_labels !! i /\
        (((3 # 10) < margin row assigned best_other)%Q ->
           revised_labels !! i = Some best_other) /\
        ((margin row assigned best_other <= (3 # 10))%Q ->
           revised_labels !! i = Some assigned).
Proof.
  refine (lrt_correction_per_example [0] [[2 # 10; 75 # 100; 5 # 100]]%Q
            (3 # 10)%Q (1 # 10)%Q eq_refl _).
  intros [|i] y row Hy Hrow; [|discriminate].
  injection Hy as <-. injection Hrow as <-. simpl. lia.
Defined.

Lemma topk_selects_highest_witness :
  py_last 2 (argsort_stable [10; 50; 30]%Q) = [2; 1] /\
  length (py_last 2 (argsort_stable [10; 50; 30]%Q)) = 2 /\
  NoDup (py_last 2 (argsort_stable [10; 50; 30]%Q)) /\
  (forall i j, i ∈ py_last 2 (argsort_stable [10; 50; 30]%Q) ->
               j < length [10; 50; 30]%Q ->
               j ∉ py_last 2 (argsort_stable [10; 50; 30]%Q) ->
               (at1 [10; 50; 30] j <= at1 [10; 50; 30] i)%Q).
Proof.
  destruct (topk_selects_highest [10; 50; 30]%Q (argsort_stable [10; 50; 30]%Q) 2
              (argsort_stable_ok [10; 50; 30]%Q) ltac:(simpl; lia))
    as (Hlen & Hnd & _ & _ & Hmax & _).
  split; [reflexivity|]. split; [exact Hlen|]. split; [exact Hnd|exact Hmax].
Defined.

(** C2, as the spec states it, fails on two counts.  On the ledger after a
    first epoch (one accuracy, 29 zeros) a sort that meets the contract of
    [np.argsort] may leave the tied slots in descending order, so the
    selection does not break ties by ascending slot; the default sort of
    [np.argsort] promises no order among equal keys.  And for [k = 0] the
    slice [[-0:]] is the whole result, 30 slots instead of none. *)
Lemma argsort_ties_not_ascending :
  ArgsortOf first_epoch_ledger (argsort_reversed_ties first_epoch_ledger) /\
  py_last top_k (argsort_reversed_ties first_epoch_ledger)
  = [9; 8; 7; 6; 5; 4; 3; 2; 1; 0] /\
  ~ ties_ascending first_epoch_ledger
      (py_last top_k (argsort_reversed_ties first_epoch_ledger)) /\
  py_last top_k (argsort_reversed_ties first_epoch_ledger)
  <> py_last top_k (argsort_stable first_epoch_ledger) /\
  length (py_last 0 (argsort_stable first_epoch_ledger)) = hist_depth.
Proof.
  split; [apply argsort_reversed_ties_ok|]. split; [by vm_compute|].
  split; [|split; [by vm_compute|by vm_compute]].
  intros Hties.
  assert (9 < 8) as Hlt; [|lia].
  apply (Hties 0 1 9 8); [by vm_compute|by vm_compute|lia|by vm_compute].
Qed.

Lemma sample_call_fails :
  Store.correction_call Store.in_place_engine 0 two_rows (3 # 10)%Q bad_store
  = ((Store.correction_call Store.in_place_engine 0 two_rows (3 # 10)%Q bad_store).1,
     None).
Proof. by vm_compute. Qed.

Lemma failed_correction_keeps_labels_witness :
  (Store.correction_call Store.in_place_engine 0 two_rows (3 # 10)%Q bad_store).1 !! 0
  = bad_store !! 0.
Proof.
  refine (Store.failed_correction_keeps_labels Store.in_place_engine 0 two_rows
            (3 # 10)%Q bad_store _ None Store.in_place_engine_frames _
            sample_call_fails).
  apply elem_of_dom. exists [0; 7]. apply lookup_singleton_eq.
Defined.

(** Without the copy the same engine leaves the dataset half relabelled. *)
Example aliased_call_corrupts_labels :
  (Store.correction_call_aliased Store.in_place_engine 0 two_rows (3 # 10)%Q
     bad_store).1 !! 0 = Some [1; 7] /\
  (Store.correction_call Store.in_place_engine 0 two_rows (3 # 10)%Q
     bad_store).1 !! 0 = Some [0; 7].
Proof. split; by vm_compute. Qed.

(** * Further properties of the code *)

(** ** The loaders of the validation and test sets ([drop_last] left False) *)

(** [val_total += images.size(0)] over the batches of a loader. *)
Definition loader_total (bs : nat) (drop_last : bool) (sampler : list nat) : nat :=
  foldl (fun total b => total + length b) 0 (batch_sampler bs drop_last [] sampler).

Lemma batch_sampler_keep_last (bs : nat) (sampler batch : list nat) :
  0 < bs -> length batch < bs ->
  concat (batch_sampler bs false batch sampler) = batch ++ sampler /\
  Forall (fun b => 1 <= length b <= bs) (batch_sampler bs false batch sampler).
Proof.
  intros Hbs. revert batch.
  induction sampler as [|idx sampler IH]; intros batch Hlen; cbn [batch_sampler].
  - destruct batch as [|i batch]; [by split|]. split.
    + simpl. by rewrite !app_nil_r.
    + constructor; [|done]. simpl in *. lia.
  - destruct (Nat.eqb_spec (length (batch ++ [idx])) bs) as [E|E].
    + destruct (IH [] Hbs) as [Hcat Hall]. split.
      * simpl. rewrite Hcat. simpl. by rewrite <- app_assoc.
      * constructor; [lia|done].
    + rewrite length_app in E. simpl in E.
      destruct (IH (batch ++ [idx])) as [Hcat Hall].
      { rewrite length_app. simpl. lia. }
      split; [|done]. rewrite Hcat. by rewrite <- app_assoc.
Qed.

Lemma foldl_total_length (bl : list (list nat)) (t : nat) :
  foldl (fun total b => total + length b) t bl = t + length (concat bl).
Proof.
  revert t. induction bl as [|b bl IH]; intros t; simpl; [lia|].
  rewrite IH, length_app. lia.
Qed.

(** X1: a loader built without [drop_last] (the validation and the test
    loader) yields every index of its sampler once and in order, in batches
    of 1 to [batch_size] indices; so its total ([val_total], [test_total]) is
    the size of the set. *)
Theorem loader_without_drop_last_covers_all (bs : nat) (sampler : list nat) :
  0 < bs ->
  concat (batch_sampler bs false [] sampler) = sampler /\
  Forall (fun b => 1 <= length b <= bs) (batch_sampler bs false [] sampler) /\
  loader_total bs false sampler = length sampler.
Proof.
  intros Hbs. destruct (batch_sampler_keep_last bs sampler [] Hbs Hbs) as [Hcat Hall].
  simpl in Hcat. split; [done|]. split; [done|].
  unfold loader_total. rewrite foldl_total_length, Hcat. lia.
Qed.

Lemma loader_without_drop_last_covers_all_witness :
  concat (batch_sampler 2 false [] [0; 1; 2; 3; 4]) = [0; 1; 2; 3; 4] /\
  Forall (fun b => 1 <= length b <= 2) (batch_sampler 2 false [] [0; 1; 2; 3; 4]) /\
  loader_total 2 false [0; 1; 2; 3; 4] = length [0; 1; 2; 3; 4].
Proof.
  exact (loader_without_drop_last_covers_all 2 [0; 1; 2; 3; 4] ltac:(lia)).
Defined.

(** ** What the loop needs of the engine *)

(** What the loop needs of the engine: on one class index per row of a
    matrix with [C] columns it returns, with as many class indices. *)
Definition returns_class_indices (f : engine_type) : Prop :=
  forall labels avg thd inc,
    length labels = length avg ->
    Forall (fun y => y < num_class) labels ->
    Forall (fun r => length r = num_class) avg ->
    exists y thd', f labels avg thd inc = Returned y thd' /\
                   length y = length labels /\
                   Forall (fun c => c < num_class) y.

Lemma lrt_one_class_index (thd : Q) (assigned : nat) (row : vector) :
  assigned < num_class -> length row = num_class ->
  exists y, lrt_one thd assigned row = Some y /\ y < num_class.
Proof.
  intros Ha Hl. unfold lrt_one.
  destruct (Nat.leb_spec (length row) assigned) as [Hle|_]; [lia|].
  destruct (argmax_other_is_Some assigned row) as [b Hb];
    [rewrite Hl; unfold num_class; lia|].
  rewrite Hb. apply argmax_other_Some in Hb as (Hlt & _).
  eexists. split; [done|]. destruct (Qlt_bool _ _); lia.
Qed.

Lemma lrt_correction_returns_class_indices : returns_class_indices lrt_correction.
Proof.
  intros labels avg thd inc Hlen Hlab Havg. unfold lrt_correction.
  rewrite Hlen, Nat.eqb_refl.
  assert (exists y, mapM (fun ya => lrt_one thd ya.1 ya.2) (zip labels avg) = Some y /\
                    length y = length labels /\ Forall (fun c => c < num_class) y)
    as (y & Hm & Hy & Hv).
  2: { rewrite Hm. exists y, (Qmin (thd + inc) 1). split; [done|]. split; [congruence|done]. }
  clear inc. revert avg Hlen Havg.
  induction Hlab as [|a labels Ha Hlab IH]; intros [|row avg] Hlen Havg;
    try discriminate.
  - by exists [].
  - apply Forall_cons in Havg as [Hrow Havg]. injection Hlen as Hlen.
    destruct (IH avg Hlen Havg) as (y & Hm & Hy & Hv).
    destruct (lrt_one_class_index thd a row Ha Hrow) as (c & Hc & Hlt).
    exists (c :: y). cbn [zip zip_with mapM fst snd].
    rewrite Hc. cbn [mbind option_bind]. fold (zip labels avg). rewrite Hm.
    split; [done|]. split; [by rewrite !length_cons, Hy|].
    by constructor.
Qed.

(** ** More on the epoch loop *)

Section DriverMore.
Variable expQ : Q -> Q.
Variable argsort : vector -> list nat.
Variable lrt_correction_fn : engine_type.
Variable w : world.

Abbreviation run_w := (run expQ argsort lrt_correction_fn w).
Abbreviation epoch_body_w := (epoch_body expQ argsort lrt_correction_fn w).

(** With [N] a multiple of 128 no example is left out of the batches. *)
Lemma visited_everything (e i : nat) :
  n_train w mod batch_size = 0 ->
  shuffle w e ≡ₚ seq 0 (n_train w) -> i < n_train w -> i ∈ visited w e.
Proof.
  intros Hmod Hperm Hi.
  assert (batch_size * (n_train w / batch_size) = n_train w) as Hk.
  { pose proof (Nat.Div0.div_mod (n_train w) batch_size). lia. }
  assert (length (shuffle w e) = n_train w) as Hl by (by rewrite Hperm, length_seq).
  rewrite visited_prefix, Hl, Hk, <- Hl, firstn_all, Hperm.
  apply elem_of_seq. lia.
Qed.

(** X2: when the sampler goes through the [N] examples once, the training
    pass of an epoch visits [N - N mod 128] distinct examples: all of them
    when [N] is a multiple of 128, and never more than [N]. *)
Theorem training_pass_visits (e : nat) :
  shuffle w e ≡ₚ seq 0 (n_train w) ->
  NoDup (visited w e) /\
  length (visited w e) = n_train w - n_train w mod batch_size /\
  (forall i, i ∈ visited w e -> i < n_train w) /\
  (n_train w mod batch_size = 0 -> forall i, i < n_train w -> i ∈ visited w e).
Proof.
  intros Hperm.
  assert (length (shuffle w e) = n_train w) as Hlen by (by rewrite Hperm, length_seq).
  assert (NoDup (shuffle w e)) as Hnd by (rewrite Hperm; apply NoDup_seq).
  assert (batch_size * (n_train w / batch_size) = n_train w - n_train w mod batch_size)
    as Hk.
  { pose proof (Nat.Div0.div_mod (n_train w) batch_size). lia. }
  split; [|split; [|split]].
  - rewrite visited_prefix, Hlen, Hk.
    rewrite <- (take_drop (n_train w - n_train w mod batch_size) (shuffle w e)) in Hnd.
    by apply NoDup_app in Hnd as (? & _).
  - rewrite visited_prefix, Hlen, Hk, length_take, Hlen. lia.
  - intros i Hi. rewrite visited_prefix in Hi. apply elem_of_take in Hi as (j & Hj & _).
    apply list_elem_of_lookup_2 in Hj. rewrite Hperm in Hj.
    apply elem_of_seq in Hj. lia.
  - intros Hmod i Hi. by apply visited_everything.
Qed.

(** X3: when [N] is a multiple of 128, the training pass of epoch [e] leaves
    in row [e mod 30] of the buffer, for every one of the [N] examples, the
    softmax vector the model produced for it in that epoch. *)
Theorem full_batches_record_every_example (e : nat) (st : state) (i : nat) :
  n_train w mod batch_size = 0 ->
  shuffle w e ≡ₚ seq 0 (n_train w) ->
  run_w (S e) = Ok st -> i < n_train w ->
  row_at (output_record st) (e mod hist_depth) i = Some (recorded_row expQ w e i).
Proof.
  intros Hmod Hperm Hr Hi.
  assert (e mod hist_depth < hist_depth) as Hs
    by (apply Nat.mod_upper_bound; unfold hist_depth; lia).
  rewrite (run_buffer _ _ _ _ _ _ _ _ Hr Hs Hi). cbn [last_visit_in].
  rewrite decide_True; [done|]. split; [done|].
  by apply visited_everything.
Qed.

(** X4: an epoch raises ZeroDivisionError exactly when its sampler yields
    fewer than 128 indices (no batch, [train_total = 0]) or the validation
    set is empty ([val_total = 0]); the ledger, the labels and the threshold
    are then as the epoch found them. *)
Theorem epoch_zero_division (e : nat) (st : state) :
  (length (shuffle w e) < batch_size \/ val_total w = 0) <->
  exists st', epoch_body_w e st = Raise ZeroDivisionError st' /\
              val_record st' = val_record st /\ trainset st' = trainset st /\
              current_thd st' = current_thd st /\ calls st' = calls st.
Proof.
  unfold epoch_body. rewrite train_pass_eq, visited_length.
  assert (batch_size * (length (shuffle w e) / batch_size) = 0
          <-> length (shuffle w e) < batch_size) as Hz.
  { unfold batch_size. rewrite <- Nat.div_small_iff by lia. lia. }
  destruct (Nat.eqb_spec (batch_size * (length (shuffle w e) / batch_size)) 0) as [E|E].
  { split; [|intros _; left; by apply Hz]. intros _. by eexists. }
  destruct (Nat.eqb_spec (val_total w) 0) as [Ev|Ev].
  { split; [|intros _; by right]. intros _. by eexists. }
  split; [intros [Hl|Hv]; [by apply Hz in Hl|done]|].
  intros (st' & Hraise & _). exfalso.
  destruct (warmup_epoch <=? e); [|done].
  unfold correction in Hraise. destruct (gather _ _); [|done].
  by destruct (lrt_correction_fn _ _ _ _).
Qed.

Hypothesis argsort_ok : forall v, ArgsortOf v (argsort v).

(** X5: [output_record[ind]] never raises IndexError: whatever the run,
    [ind] only names slots of the buffer. *)
Theorem selection_never_out_of_range (n : nat) (st : state) :
  run_w n <> Raise IndexError st.
Proof.
  revert st. induction n as [|n IH]; intros st; [done|].
  cbn [run]. destruct (run_w n) as [st0|x st0] eqn:Hr; [|apply IH].
  destruct (run_shapes _ _ _ _ _ _ Hr) as (Hlen & Hvl & _).
  unfold epoch_body. rewrite train_pass_eq.
  destruct (_ =? 0); [done|]. destruct (_ =? 0); [done|].
  destruct (warmup_epoch <=? n); [|done].
  unfold correction. cbn [output_record val_record ind trainset current_thd calls].
  rewrite gather_in_range; [by destruct (lrt_correction_fn _ _ _ _)|].
  rewrite length_alter, Hlen.
  set (vr := <[_ := _]> (val_record st0)).
  destruct (py_last_argsort vr (argsort vr) top_k) as (_ & _ & H3 & _); [done| |].
  - unfold vr. rewrite length_insert, Hvl. unfold top_k, hist_depth. lia.
  - apply Forall_forall. intros s Hs. apply H3 in Hs.
    unfold vr in Hs. by rewrite length_insert, Hvl in Hs.
Qed.

(** The loop goes on, with one class index per example as labels, as long
    as every epoch has a full batch, the validation set is not empty and the
    engine returns class indices. *)
Lemma run_keeps_class_indices (n : nat) :
  (forall e, batch_size <= length (shuffle w e)) ->
  val_total w <> 0 ->
  length (labels0 w) = n_train w ->
  Forall (fun y => y < num_class) (labels0 w) ->
  returns_class_indices lrt_correction_fn ->
  exists st, run_w n = Ok st /\
             length (targets (trainset st)) = n_train w /\
             Forall (fun y => y < num_class) (targets (trainset st)).
Proof.
  intros Hbatch Hval Hl0 Hv0 Heng.
  induction n as [|n (st & IH & Hl & Hv)]; [by eexists|].
  assert (length (output_record st) = hist_depth) as Hlen
    by (by destruct (run_shapes _ _ _ _ _ _ IH)).
  assert (length (val_record st) = hist_depth) as Hvl
    by (by destruct (run_shapes _ _ _ _ _ _ IH) as (_ & ? & _)).
  cbn [run]. rewrite IH. unfold epoch_body. rewrite train_pass_eq.
  rewrite visited_length.
  assert (batch_size * (length (shuffle w n) / batch_size) <> 0) as Hne.
  { specialize (Hbatch n).
    assert (1 <= length (shuffle w n) / batch_size); [|unfold batch_size in *; lia].
    apply Nat.div_le_lower_bound; unfold batch_size in *; lia. }
  destruct (Nat.eqb_spec (batch_size * (length (shuffle w n) / batch_size)) 0); [done|].
  destruct (Nat.eqb_spec (val_total w) 0); [done|].
  destruct (warmup_epoch <=? n); [|by eexists].
  unfold correction. cbn [output_record val_record ind trainset current_thd calls].
  rewrite gather_in_range.
  - match goal with |- context [mean0 ?a ?b ?c] =>
      destruct (mean0_shape a b c) as [Ha1 Ha2]; set (avg := mean0 a b c) in *
    end.
    destruct (Heng (np_copy (targets (trainset st))) avg (current_thd st) thd_increment)
      as (y & thd' & -> & Hy & Hvy); [unfold np_copy; by rewrite Ha1|done|done|].
    eexists. split; [done|]. cbn [trainset update_corrupted_label targets].
    split; [by rewrite Hy|done].
  - rewrite length_alter, Hlen.
    set (vr := <[_ := _]> (val_record st)).
    destruct (py_last_argsort vr (argsort vr) top_k) as (_ & _ & H3 & _); [done| |].
    + unfold vr. rewrite length_insert, Hvl. unfold top_k, hist_depth. lia.
    + apply Forall_forall. intros s Hs. apply H3 in Hs.
      unfold vr in Hs. by rewrite length_insert, Hvl in Hs.
Qed.

(** X6: with a training set of at least 128 examples that the sampler goes
    through once per epoch, a validation set that is not empty, a model with
    [C] outputs, labels that are class indices, and an engine that returns
    class indices when it is given class indices, the epoch loop runs
    through any number of epochs without raising; the engine is called once
    in each epoch from 40 on; and in every epoch the label of every example
    in a batch is a class index of the model's output for it, as the loss of
    line 101 requires. *)
Theorem epoch_loop_completes (n : nat) :
  batch_size <= n_train w ->
  (forall e, shuffle w e ≡ₚ seq 0 (n_train w)) ->
  val_total w <> 0 ->
  (forall e i, length (logits w e i) = num_class) ->
  length (labels0 w) = n_train w ->
  Forall (fun y => y < num_class) (labels0 w) ->
  returns_class_indices lrt_correction_fn ->
  exists st, run_w n = Ok st /\
    c_epoch <$> calls st = seq warmup_epoch (n - warmup_epoch) /\
    length (targets (trainset st)) = n_train w /\
    Forall (fun y => y < num_class) (targets (trainset st)) /\
    forall e i, e < n -> i ∈ visited w e ->
      exists st_e y, run_w e = Ok st_e /\
                     targets (trainset st_e) !! i = Some y /\
                     y < length (logits w e i).
Proof.
  intros HN Hperm Hval Hlog Hl0 Hv0 Heng.
  assert (forall e, batch_size <= length (shuffle w e)) as Hbatch
    by (intros e; by rewrite Hperm, length_seq).
  destruct (run_keeps_class_indices n Hbatch Hval Hl0 Hv0 Heng) as (st & Hr & Hl & Hv).
  exists st. split; [done|].
  split; [by apply (run_calls_epochs expQ argsort lrt_correction_fn w)|].
  split; [done|]. split; [done|].
  intros e i He Hi.
  destruct (run_keeps_class_indices e Hbatch Hval Hl0 Hv0 Heng) as (st_e & Hre & Hle & Hve).
  assert (i < n_train w) as HiN.
  { rewrite visited_prefix in Hi. apply elem_of_take in Hi as (j & Hj & _).
    apply list_elem_of_lookup_2 in Hj. rewrite Hperm in Hj.
    apply elem_of_seq in Hj. lia. }
  destruct (lookup_lt_is_Some_2 (targets (trainset st_e)) i) as [y Hy]; [by rewrite Hle|].
  exists st_e, y. split; [done|]. split; [done|].
  rewrite Hlog. by apply (Forall_lookup_1 _ _ _ _ Hve Hy).
Qed.

(** X7: the buffer keeps its shape: 30 slots of [N] rows of [C] entries
    each, and the ledger its 30 slots, as long as the model returns [C]
    scores per example. *)
Theorem buffer_shape_invariant (n : nat) (st : state) :
  (forall e i, length (logits w e i) = num_class) ->
  run_w n = Ok st ->
  length (output_record st) = hist_depth /\
  length (val_record st) = hist_depth /\
  Forall (fun m => length m = n_train w /\ Forall (fun r => length r = num_class) m)
         (output_record st).
Proof.
  intros Hlog Hr. destruct (run_shapes _ _ _ _ _ _ Hr) as (Hlen & Hvl & Hrows).
  split; [done|]. split; [done|].
  apply Forall_lookup. intros s m Hm.
  pose proof (Forall_lookup_1 _ _ _ _ Hrows Hm) as HmN. split; [done|].
  apply Forall_lookup. intros i r Hi.
  assert (s < hist_depth) as Hs by (rewrite <- Hlen; by apply lookup_lt_Some in Hm).
  assert (i < n_train w) as HiN by (rewrite <- HmN; by apply lookup_lt_Some in Hi).
  pose proof (run_buffer _ _ _ _ _ _ s i Hr Hs HiN) as Hb.
  unfold row_at in Hb. rewrite Hm in Hb. simpl in Hb. rewrite Hi in Hb.
  assert (r = from_option (fun e => recorded_row expQ w e i) (zeros1 num_class)
                (last_visit_in w n s i)) as -> by congruence.
  destruct (last_visit_in w n s i) as [e|]; cbn [from_option].
  - unfold recorded_row. rewrite softmax_row_length. apply Hlog.
  - unfold zeros1. apply length_replicate.
Qed.

Lemma last_epoch_in_small (n s : nat) :
  n <= hist_depth ->
  last_epoch_in n s = if decide (s < n) then Some s else None.
Proof.
  induction n as [|n IH]; intros Hn; cbn [last_epoch_in].
  - by rewrite decide_False by lia.
  - rewrite Nat.mod_small by lia. destruct (decide (n = s)) as [->|Hne].
    + by rewrite decide_True by lia.
    + rewrite IH by lia. destruct (decide (s < n)).
      * by rewrite decide_True by lia.
      * by rewrite decide_False by lia.
Qed.

(** X8: during the first 30 epochs the ledger is only partly written: after
    [n <= 30] epochs slot [s < n] holds the accuracy of epoch [s] and every
    slot from [n] on still holds the 0 it was created with, which is what
    the top-10 selection then reads there. *)
Theorem ledger_before_wraparound (n : nat) (st : state) (s : nat) :
  run_w n = Ok st -> n <= hist_depth -> s < hist_depth ->
  val_record st !! s = Some (if decide (s < n) then val_acc w s else 0%Q).
Proof.
  intros Hr Hn Hs. rewrite (run_ledger _ _ _ _ _ _ _ Hr Hs).
  rewrite last_epoch_in_small by done. by destruct (decide (s < n)).
Qed.

End DriverMore.

(** ** The best checkpoint and the result of [main] *)

Section Checkpoint.
Variable W : Type.                     (* what model.state_dict() returns *)
Variable expQ : Q -> Q.
Variable argsort : vector -> list nat.
Variable lrt_correction_fn : engine_type.
Variable w : world.
Variable state_dict : nat -> W.        (* copy.deepcopy(model.state_dict()) in an epoch *)
Variable test_correct : W -> nat.      (* correct test predictions with given weights *)
Variable test_total : nat.             (* len(testset) *)

(** [best_acc], [best_epoch], [best_weights] of [main]. *)
Record checkpoint := {
  best_acc : Q;
  best_epoch : nat;
  best_weights : option W;
}.

Definition checkpoint_init : checkpoint :=
  {| best_acc := 0; best_epoch := 0; best_weights := None |}.

(** [if val_acc > best_acc: ...] *)
Definition checkpoint_update (epoch : nat) (b : checkpoint) : checkpoint :=
  if Qlt_bool (best_acc b) (val_acc w epoch)
  then {| best_acc := val_acc w epoch; best_epoch := epoch;
          best_weights := Some (state_dict epoch) |}
  else b.

(** The checkpoint after the first [n] epochs. *)
Fixpoint checkpoint_after (n : nat) : checkpoint :=
  match n with
  | 0 => checkpoint_init
  | S n' => checkpoint_update n' (checkpoint_after n')
  end.

Inductive main_result :=
| Returns (test_acc : Q)
| EmptyTrainSet            (* the ValueError of DataLoader(trainset, shuffle = True)
                              on an empty training set, line 55 *)
| RaisedInLoop (e : exn)
| LoadStateDictOfNone      (* model.load_state_dict(None) *)
| TestZeroDivision.        (* test_correct / test_total with an empty test set *)

(** [main(args)] with [args.nepoch = nepoch]: the train loader (its random
    sampler refuses a dataset without examples), the epoch loop, then the
    test of the best weights. *)
Definition main (nepoch : nat) : main_result :=
  if n_train w =? 0 then EmptyTrainSet
  else
    match run expQ argsort lrt_correction_fn w nepoch with
    | Raise e _ => RaisedInLoop e
    | Ok _ =>
        match best_weights (checkpoint_after nepoch) with
        | None => LoadStateDictOfNone
        | Some weights =>
            if test_total =? 0 then TestZeroDivision
            else Returns (inject_Z (Z.of_nat (test_correct weights))
                          / inject_Z (Z.of_nat test_total) * 100)%Q
        end
    end.

(** The invariant of the checkpoint along the epochs. *)
Lemma best_checkpoint_is_first_maximum_aux (n : nat) :
  (forall e, e < n -> (val_acc w e <= best_acc (checkpoint_after n))%Q) /\
  match best_weights (checkpoint_after n) with
  | None => best_acc (checkpoint_after n) = 0%Q /\
            forall e, e < n -> (val_acc w e <= 0)%Q
  | Some weights =>
      best_epoch (checkpoint_after n) < n /\
      weights = state_dict (best_epoch (checkpoint_after n)) /\
      best_acc (checkpoint_after n) = val_acc w (best_epoch (checkpoint_after n)) /\
      (0 < best_acc (checkpoint_after n))%Q /\
      forall e, e < best_epoch (checkpoint_after n) ->
                (val_acc w e < best_acc (checkpoint_after n))%Q
  end.
Proof.
  induction n as [|n [IHmax IHb]]; cbn [checkpoint_after].
  - split; [intros e He; lia|]. simpl. split; [done|]. intros e He. lia.
  - unfold checkpoint_update.
    destruct (Qlt_bool (best_acc (checkpoint_after n)) (val_acc w n)) eqn:Ec.
    + apply Qlt_bool_true in Ec. cbn [best_acc best_epoch best_weights].
      assert (forall e, e < n -> (val_acc w e < val_acc w n)%Q) as Hlt.
      { intros e He. by apply Qle_lt_trans with (best_acc (checkpoint_after n)); [apply IHmax|]. }
      split.
      * intros e He. destruct (decide (e = n)) as [->|Hne]; [apply Qle_refl|].
        apply Qlt_le_weak, Hlt. lia.
      * split; [lia|]. split; [done|]. split; [done|]. split; [|done].
        destruct (best_weights (checkpoint_after n)).
        -- destruct IHb as (_ & _ & _ & Hpos & _). by apply Qlt_trans with (best_acc (checkpoint_after n)).
        -- destruct IHb as [E0 _]. by rewrite E0 in Ec.
    + apply Qlt_bool_false in Ec. split.
      * intros e He. destruct (decide (e = n)) as [->|Hne]; [done|]. apply IHmax. lia.
      * destruct (best_weights (checkpoint_after n)).
        -- destruct IHb as (Hlt & Hw & Ha & Hpos & Hfirst). repeat split; [lia|done..].
        -- destruct IHb as [E0 Hle]. split; [done|]. intros e He.
           destruct (decide (e = n)) as [->|Hne]; [by rewrite E0 in Ec|]. apply Hle. lia.
Qed.

(** X9: after [n] epochs [best_acc] is at least every validation accuracy
    seen and at least 0.  Either no accuracy was positive, and then
    [best_acc] is 0 and [best_weights] is None; or [best_weights] are the
    weights of epoch [best_epoch], whose accuracy is [best_acc], positive,
    and strictly above that of every earlier epoch: among equal maxima the
    first epoch is kept. *)
Theorem best_checkpoint_is_first_maximum (n : nat) :
  (forall e, e < n -> (val_acc w e <= best_acc (checkpoint_after n))%Q) /\
  match best_weights (checkpoint_after n) with
  | None => best_acc (checkpoint_after n) = 0%Q /\
            forall e, e < n -> (val_acc w e <= 0)%Q
  | Some weights =>
      best_epoch (checkpoint_after n) < n /\
      weights = state_dict (best_epoch (checkpoint_after n)) /\
      best_acc (checkpoint_after n) = val_acc w (best_epoch (checkpoint_after n)) /\
      (0 < best_acc (checkpoint_after n))%Q /\
      forall e, e < best_epoch (checkpoint_after n) ->
                (val_acc w e < best_acc (checkpoint_after n))%Q
  end.
Proof. exact (best_checkpoint_is_first_maximum_aux n). Qed.



(** X11: when [main] returns, it returns the test accuracy
    [test_correct / test_total * 100] of the weights saved in the first epoch
    that reached the highest validation accuracy, and that accuracy was
    positive. *)
Theorem main_returns_test_of_best_epoch (nepoch : nat) (acc : Q) :
  main nepoch = Returns acc ->
  exists e, e < nepoch /\ best_epoch (checkpoint_after nepoch) = e /\
    (0 < val_acc w e)%Q /\
    (forall e', e' < nepoch -> (val_acc w e' <= val_acc w e)%Q) /\
    (forall e', e' < e -> (val_acc w e' < val_acc w e)%Q) /\
    test_total <> 0 /\
    acc = (inject_Z (Z.of_nat (test_correct (state_dict e)))
           / inject_Z (Z.of_nat test_total) * 100)%Q /\
    exists st, run expQ argsort lrt_correction_fn w nepoch = Ok st.
Proof.
  unfold main. destruct (n_train w =? 0); [done|].
  destruct (run _ _ _ _ _) as [st|] eqn:Hr; [|done].
  pose proof (best_checkpoint_is_first_maximum_aux nepoch) as [Hmax Hb].
  destruct (best_weights (checkpoint_after nepoch)) as [wt|]; [|done].
  destruct (Nat.eqb_spec test_total 0) as [|Ht]; [done|]. intros [= <-].
  destruct Hb as (Hlt & -> & Ha & Hpos & Hfirst).
  exists (best_epoch (checkpoint_after nepoch)). rewrite <- Ha.
  repeat split; try done. by exists st.
Qed.

End Checkpoint.

Arguments best_acc {W} _.
Arguments best_epoch {W} _.
Arguments best_weights {W} _.

(** * The network of [networks/vgg.py], at the level of tensor shapes *)

Module Vgg.

(** An entry of a layout: ['M'] or a number of channels. *)
Inductive entry := M | Width (v : nat).

(** The [torch.nn] modules the file builds, with the arguments it gives. *)
Inductive module_ :=
| Conv2d (in_channels out_channels kernel_size padding : nat)
| BatchNorm2d (num_features : nat)
| ReLU
| MaxPool2d (kernel_size stride : nat)
| AdaptiveAvgPool2d (out_h out_w : nat)
| Linear (in_features out_features : nat)
| Dropout.

(** The loop of [make_layers], from the current [in_channels]. *)
Fixpoint make_layers_from (in_channels : nat) (layout : list entry) : list module_ :=
  match layout with
  | [] => []
  | M :: rest => MaxPool2d 2 2 :: make_layers_from in_channels rest
  | Width v :: rest =>
      Conv2d in_channels v 3 1 :: BatchNorm2d v :: ReLU :: make_layers_from v rest
  end.

Definition make_layers (layout : list entry) : list module_ :=
  make_layers_from 3 layout.

Definition layout : list entry :=
  [Width 64; Width 64; M; Width 128; Width 128; M;
   Width 256; Width 256; Width 256; Width 256; M;
   Width 512; Width 512; Width 512; Width 512; M;
   Width 512; Width 512; Width 512; Width 512; M].

Record VGG := {
  features : list module_;
  avgpool : module_;
  classifier : list module_;
}.

(** [VGG.__init__(features, num_classes)] *)
Definition VGG_init (features : list module_) (num_classes : nat) : VGG :=
  {| features := features;
     avgpool := AdaptiveAvgPool2d 7 7;
     classifier := [Linear (512 * 7 * 7) 4096; ReLU; Dropout;
                    Linear 4096 4096; ReLU; Dropout;
                    Linear 4096 num_classes] |}.

(** [vgg19_bn(num_classes)]: the body is [VGG(make_layers(layout))], so
    [VGG.__init__] runs with its default [num_classes = 10]. *)
Definition vgg19_bn (num_classes : nat) : VGG := VGG_init (make_layers layout) 10.

(** The shape of a tensor: (N, C, H, W) or (N, F). *)
Inductive shape := NCHW (n c h w : nat) | NF (n f : nat).

(** The shape a module returns, [None] when it raises on the input's shape.
    Conv2d (stride 1, one group) and Linear check the channels or features
    they read; a Conv2d raises when it has no output channel (its weight has
    fewer rows than groups) and when it has no input channel to fill a batch
    that is not empty from; a kernel of size 0 or larger than its (padded)
    input raises; the pooling modules raise on a tensor without channels;
    BatchNorm2d in training mode raises when it is given a single value per
    channel. *)
Definition module_shape (training : bool) (m : module_) (x : shape) : option shape :=
  match m, x with
  | Conv2d cin cout k p, NCHW n c h w =>
      if (c =? cin) && (1 <=? cout) && ((1 <=? c) || (n =? 0))
         && (1 <=? k) && (k <=? h + 2 * p) && (k <=? w + 2 * p)
      then Some (NCHW n cout (h + 2 * p - k + 1) (w + 2 * p - k + 1)) else None
  | BatchNorm2d f, NCHW n c h w =>
      if (c =? f) && (negb training || negb (n * (h * w) =? 1))
      then Some x else None
  | ReLU, _ => Some x
  | Dropout, _ => Some x
  | MaxPool2d k s, NCHW n c h w =>
      if (1 <=? c) && (1 <=? k) && (1 <=? s) && (k <=? h) && (k <=? w)
      then Some (NCHW n c ((h - k) / s + 1) ((w - k) / s + 1)) else None
  | AdaptiveAvgPool2d oh ow, NCHW n c h w =>
      if (1 <=? c) && (1 <=? h) && (1 <=? w) then Some (NCHW n c oh ow) else None
  | Linear fin fout, NF n f => if f =? fin then Some (NF n fout) else None
  | Linear fin fout, NCHW n c h w =>
      if w =? fin then Some (NCHW n c h fout) else None
  | _, NF _ _ => None
  end.

(** [nn.Sequential]: the modules in order. *)
Fixpoint sequential (training : bool) (ms : list module_) (x : shape) : option shape :=
  match ms with
  | [] => Some x
  | m :: rest =>
      match module_shape training m x with
      | Some y => sequential training rest y
      | None => None
      end
  end.

(** [torch.flatten(x, 1)] *)
Definition flatten1 (x : shape) : shape :=
  match x with
  | NCHW n c h w => NF n (c * h * w)
  | NF n f => NF n f
  end.

(** [VGG.forward] *)
Definition forward (net : VGG) (training : bool) (x : shape) : option shape :=
  match sequential training (features net) x with
  | None => None
  | Some x1 =>
      match module_shape training (avgpool net) x1 with
      | None => None
      | Some x2 => sequential training (classifier net) (flatten1 x2)
      end
  end.

(** The widths of a layout, its number of ['M'], and the channels it ends on. *)
Fixpoint widths (l : list entry) : list nat :=
  match l with
  | [] => []
  | M :: rest => widths rest
  | Width v :: rest => v :: widths rest
  end.

Fixpoint pools (l : list entry) : nat :=
  match l with
  | [] => 0
  | M :: rest => S (pools rest)
  | Width _ :: rest => pools rest
  end.

Fixpoint out_channels (in_channels : nat) (l : list entry) : nat :=
  match l with
  | [] => in_channels
  | M :: rest => out_channels in_channels rest
  | Width v :: rest => out_channels v rest
  end.

(** The (in_channels, out_channels) of the Conv2d modules of a list. *)
Fixpoint convs (ms : list module_) : list (nat * nat) :=
  match ms with
  | [] => []
  | Conv2d i o _ _ :: rest => (i, o) :: convs rest
  | _ :: rest => convs rest
  end.

(** The modules an entry stands for, given the channels before it. *)
Definition block (in_channels : nat) (e : entry) : list module_ :=
  match e with
  | M => [MaxPool2d 2 2]
  | Width v => [Conv2d in_channels v 3 1; BatchNorm2d v; ReLU]
  end.

(** Where the modules of entry [k] start: three per width and one per ['M']
    before it. *)
Definition offset (l : list entry) (k : nat) : nat :=
  3 * length (widths (take k l)) + pools (take k l).

Lemma make_layers_from_block (in_channels : nat) (l : list entry) (k : nat) (e : entry) :
  l !! k = Some e ->
  forall d, d < length (block (out_channels in_channels (take k l)) e) ->
    make_layers_from in_channels l !! (offset l k + d)
    = block (out_channels in_channels (take k l)) e !! d.
Proof.
  unfold offset. revert in_channels k.
  induction l as [|x l IH]; intros c k Hk d Hd; [done|].
  destruct k as [|k].
  - injection Hk as ->. cbn [take widths pools length out_channels Nat.mul Nat.add] in *.
    destruct e as [|v]; cbn [block length] in Hd.
    + by replace d with 0 by lia.
    + destruct d as [|[|[|d]]]; [done..|lia].
  - cbn [lookup list_lookup] in Hk. cbn [take]. destruct x as [|v].
    + cbn [widths pools out_channels make_layers_from].
      replace (3 * length (widths (take k l)) + S (pools (take k l)) + d)
        with (S (3 * length (widths (take k l)) + pools (take k l) + d)) by lia.
      cbn [lookup list_lookup]. by apply IH.
    + cbn [widths pools out_channels make_layers_from length].
      replace (3 * S (length (widths (take k l))) + pools (take k l) + d)
        with (S (S (S (3 * length (widths (take k l)) + pools (take k l) + d)))) by lia.
      cbn [lookup list_lookup]. by apply IH.
Qed.

(** X12: [make_layers] turns every width [v] into the triple Conv2d (kernel
    3, padding 1, [v] output channels), BatchNorm2d [v], ReLU, and every
    ['M'] into one MaxPool2d (kernel 2, stride 2), in the order of the
    layout and with nothing else: the modules of entry [k] start after three
    modules per width and one per ['M'] before it.  Each Conv2d reads the
    channels the Conv2d before it writes, the first one [in_channels] (3 in
    [make_layers]). *)
Theorem make_layers_structure (in_channels : nat) (l : list entry) :
  length (make_layers_from in_channels l) = 3 * length (widths l) + pools l /\
  convs (make_layers_from in_channels l) = zip (in_channels :: widths l) (widths l) /\
  forall k e, l !! k = Some e ->
    match e with
    | M => make_layers_from in_channels l !! offset l k = Some (MaxPool2d 2 2)
    | Width v =>
        make_layers_from in_channels l !! offset l k
        = Some (Conv2d (out_channels in_channels (take k l)) v 3 1) /\
        make_layers_from in_channels l !! (offset l k + 1) = Some (BatchNorm2d v) /\
        make_layers_from in_channels l !! (offset l k + 2) = Some ReLU
    end.
Proof.
  split; [|split].
  - revert in_channels. induction l as [|[|v] l IH]; intros c; simpl; [done| |].
    + rewrite (IH c). lia.
    + rewrite (IH v). lia.
  - revert in_channels. induction l as [|[|v] l IH]; intros c; simpl; [done| |].
    + by rewrite (IH c).
    + by rewrite (IH v).
  - intros k e Hk. pose proof (make_layers_from_block in_channels l k e Hk) as Hb.
    destruct e as [|v]; cbn [block length] in Hb.
    + specialize (Hb 0 ltac:(lia)). by rewrite Nat.add_0_r in Hb.
    + split; [|split].
      * specialize (Hb 0 ltac:(lia)). by rewrite Nat.add_0_r in Hb.
      * exact (Hb 1 ltac:(lia)).
      * exact (Hb 2 ltac:(lia)).
Qed.

Lemma pool_halves (h : nat) : 2 <= h -> (h - 2) / 2 + 1 = h / 2.
Proof.
  intros Hh. replace h with ((h - 2) + 1 * 2) at 2 by lia.
  rewrite Nat.div_add by lia. done.
Qed.

(** Every width of the layout is at least 1. *)
Definition positive_widths (l : list entry) : bool :=
  forallb (fun v => 1 <=? v) (widths l).

Lemma features_shape (training : bool) (l : list entry) (c n h w : nat) :
  training = false \/ 2 <= n -> 1 <= c ->
  2 ^ pools l <= h -> 2 ^ pools l <= w ->
  sequential training (make_layers_from c l) (NCHW n c h w)
  = if positive_widths l
    then Some (NCHW n (out_channels c l) (h / 2 ^ pools l) (w / 2 ^ pools l))
    else None.
Proof.
  intros Hmode. revert c h w. unfold positive_widths.
  induction l as [|[|v] l IH]; intros c h w Hc Hh Hw;
    cbn [pools] in Hh, Hw;
    cbn [make_layers_from pools out_channels sequential widths forallb].
  - cbn [Nat.pow]. by rewrite !Nat.div_1_r.
  - rewrite Nat.pow_succ_r' in Hh, Hw.
    assert (1 <= 2 ^ pools l) by (apply Nat.neq_0_lt_0, Nat.pow_nonzero; lia).
    cbn [module_shape].
    destruct (Nat.leb_spec 1 c); [|lia].
    destruct (Nat.leb_spec 2 h); [|lia]. destruct (Nat.leb_spec 2 w); [|lia].
    cbn [Nat.leb andb]. rewrite !pool_halves by lia.
    rewrite IH by (done || apply Nat.div_le_lower_bound; lia).
    rewrite !Nat.Div0.div_div, Nat.pow_succ_r'. done.
  - assert (1 <= 2 ^ pools l) by (apply Nat.neq_0_lt_0, Nat.pow_nonzero; lia).
    cbn [module_shape]. rewrite Nat.eqb_refl.
    destruct (Nat.leb_spec 1 v) as [Hv|Hv]; [|done].
    destruct (Nat.leb_spec 1 c); [|lia].
    destruct (Nat.leb_spec 3 (h + 2 * 1)); [|lia].
    destruct (Nat.leb_spec 3 (w + 2 * 1)); [|lia].
    cbn [Nat.leb andb orb]. replace (h + 2 * 1 - 3 + 1) with h by lia.
    replace (w + 2 * 1 - 3 + 1) with w by lia.
    cbn [sequential module_shape]. rewrite Nat.eqb_refl.
    assert ((negb training || negb (n * (h * w) =? 1)) = true) as ->.
    { destruct Hmode as [->|Hn]; [done|]. apply orb_true_iff. right.
      apply negb_true_iff, Nat.eqb_neq. nia. }
    cbn [andb]. by apply IH.
Qed.

(** X13: the modules [make_layers] builds for a layout accept an
    N x 3 x H x W batch whose height and width are at least 2 to the number
    of ['M'] entries (in training mode, of at least two images) exactly when
    no width of the layout is 0; they then return N x C x H' x W' with C the
    last width and H', W' the height and width halved once per ['M'].  With
    a width 0 in the layout the Conv2d built for it raises. *)
Theorem make_layers_forward_shape (training : bool) (l : list entry) (n h w : nat) :
  training = false \/ 2 <= n ->
  2 ^ pools l <= h -> 2 ^ pools l <= w ->
  sequential training (make_layers l) (NCHW n 3 h w)
  = if positive_widths l
    then Some (NCHW n (out_channels 3 l) (h / 2 ^ pools l) (w / 2 ^ pools l))
    else None.
Proof. intros Hmode Hh Hw. apply features_shape; [done|lia|done|done]. Qed.

Lemma classifier_shape (training : bool) (num_classes n c : nat) :
  sequential training (classifier (VGG_init [] num_classes)) (flatten1 (NCHW n c 7 7))
  = if c =? 512 then Some (NF n num_classes) else None.
Proof.
  cbn [VGG_init classifier flatten1 sequential module_shape].
  destruct (Nat.eqb_spec c 512) as [->|Hne].
  - rewrite Nat.eqb_refl. cbn [sequential module_shape]. by rewrite Nat.eqb_refl.
  - destruct (Nat.eqb_spec (c * 7 * 7) (512 * 7 * 7)) as [E|_]; [lia|done].
Qed.

(** X14: a [VGG] over any layout returns N x [num_classes] on an
    N x 3 x H x W batch exactly when no width of the layout is 0 and the
    layout ends on 512 channels, the width the classifier's first Linear is
    written for; with a width 0, or any other last width, the forward pass
    raises.  (Height and width as in X13.) *)
Theorem vgg_forward_shape (training : bool) (l : list entry) (num_classes n h w : nat) :
  training = false \/ 2 <= n ->
  2 ^ pools l <= h -> 2 ^ pools l <= w ->
  forward (VGG_init (make_layers l) num_classes) training (NCHW n 3 h w)
  = if positive_widths l && (out_channels 3 l =? 512)
    then Some (NF n num_classes) else None.
Proof.
  intros Hmode Hh Hw. unfold forward, make_layers.
  cbn [VGG_init features avgpool]. rewrite features_shape by (done || lia).
  destruct (positive_widths l); [|done].
  assert (1 <= 2 ^ pools l) by (apply Nat.neq_0_lt_0, Nat.pow_nonzero; lia).
  cbn [module_shape andb].
  destruct (Nat.eqb_spec (out_channels 3 l) 512) as [E|E].
  2:{ destruct (_ && _ && _); [|done].
      rewrite (classifier_shape training num_classes).
      by destruct (Nat.eqb_spec (out_channels 3 l) 512). }
  rewrite E.
  destruct (Nat.leb_spec 1 (h / 2 ^ pools l)) as [_|Hlt].
  2:{ apply Nat.lt_1_r, Nat.div_small_iff in Hlt; lia. }
  destruct (Nat.leb_spec 1 (w / 2 ^ pools l)) as [_|Hlt].
  2:{ apply Nat.lt_1_r, Nat.div_small_iff in Hlt; lia. }
  cbn [Nat.leb andb]. by rewrite (classifier_shape training num_classes).
Qed.

(** X15: [vgg19_bn] does not pass its argument on: whatever [num_classes]
    it is called with, the network returns 10 scores per image, on any batch
    of RGB images of at least 32 x 32 pixels. *)
Theorem vgg19_bn_returns_ten_scores (training : bool) (num_classes n h w : nat) :
  training = false \/ 2 <= n ->
  32 <= h -> 32 <= w ->
  forward (vgg19_bn num_classes) training (NCHW n 3 h w) = Some (NF n 10).
Proof.
  intros Hmode Hh Hw. unfold forward, vgg19_bn, make_layers.
  cbn [VGG_init features avgpool].
  rewrite features_shape by (done || lia).
  change (positive_widths layout) with true.
  change (pools layout) with 5. change (out_channels 3 layout) with 512.
  change (2 ^ 5) with 32. cbn [module_shape].
  destruct (Nat.leb_spec 1 (h / 32)) as [_|Hlt].
  2:{ apply Nat.lt_1_r, Nat.div_small_iff in Hlt; lia. }
  destruct (Nat.leb_spec 1 (w / 32)) as [_|Hlt].
  2:{ apply Nat.lt_1_r, Nat.div_small_iff in Hlt; lia. }
  cbn [Nat.leb andb]. rewrite (classifier_shape training 10). done.
Qed.

(** X16: a batch whose images do not have 3 channels is refused by the
    first Conv2d of any layout that starts with a width. *)
Theorem make_layers_rejects_other_channels (training : bool) (v : nat)
  (l : list entry) (n c h w : nat) :
  c <> 3 ->
  sequential training (make_layers (Width v :: l)) (NCHW n c h w) = None.
Proof.
  intros Hc. unfold make_layers. cbn [make_layers_from sequential module_shape].
  by destruct (Nat.eqb_spec c 3).
Qed.

(** A width 0 makes the Conv2d built for it raise. *)
Example make_layers_width_zero :
  sequential false (make_layers [Width 0; M]) (NCHW 2 3 2 2) = None /\
  forward (VGG_init (make_layers [Width 0; Width 512]) 4) false (NCHW 1 3 1 1) = None.
Proof. split; reflexivity. Qed.

Lemma make_layers_forward_shape_witness :
  sequential true (make_layers layout) (NCHW 128 3 64 64)
  = if positive_widths layout
    then Some (NCHW 128 (out_channels 3 layout) (64 / 2 ^ pools layout)
                 (64 / 2 ^ pools layout))
    else None.
Proof.
  refine (make_layers_forward_shape true layout 128 64 64 _ _ _);
    [right; lia | vm_compute; lia | vm_compute; lia].
Defined.

Lemma vgg_forward_shape_witness :
  forward (VGG_init (make_layers [Width 8; M; Width 512]) 4) false (NCHW 1 3 2 2)
  = if positive_widths [Width 8; M; Width 512]
       && (out_channels 3 [Width 8; M; Width 512] =? 512)
    then Some (NF 1 4) else None.
Proof.
  refine (vgg_forward_shape false [Width 8; M; Width 512] 4 1 2 2 _ _ _);
    [by left | vm_compute; lia | vm_compute; lia].
Defined.

Lemma vgg19_bn_returns_ten_scores_witness :
  forward (vgg19_bn 7) true (NCHW 128 3 64 64) = Some (NF 128 10).
Proof.
  refine (vgg19_bn_returns_ten_scores true 7 128 64 64 _ _ _);
    [right; lia | lia | lia].
Defined.

Lemma make_layers_rejects_other_channels_witness :
  sequential false (make_layers (Width 64 :: [M])) (NCHW 1 1 28 28) = None.
Proof.
  exact (make_layers_rejects_other_channels false 64 [M] 1 1 28 28 ltac:(lia)).
Defined.

End Vgg.

(** ** The average handed to the engine, when no example is dropped *)

Lemma Qsum_fmap_cons {A} (f : A -> Q) (a : A) (l : list A) :
  Qsum (f <$> a :: l) = (f a + Qsum (f <$> l))%Q.
Proof. reflexivity. Qed.

Lemma Qsum_ext {A} (f g : A -> Q) (l : list A) :
  (forall x, x ∈ l -> (f x == g x)%Q) -> (Qsum (f <$> l) == Qsum (g <$> l))%Q.
Proof.
  induction l as [|a l IH]; intros Hfg; [reflexivity|].
  rewrite !Qsum_fmap_cons. rewrite (Hfg a) by (by left). rewrite IH; [reflexivity|].
  intros x Hx. apply Hfg. by right.
Qed.

Lemma Qsum_plus {A} (f g : A -> Q) (l : list A) :
  (Qsum ((fun x => f x + g x) <$> l) == Qsum (f <$> l) + Qsum (g <$> l))%Q.
Proof.
  induction l as [|a l IH]; [reflexivity|].
  rewrite !Qsum_fmap_cons, IH. ring.
Qed.

Lemma Qsum_const {A} (c : Q) (l : list A) :
  (Qsum ((fun _ => c) <$> l) == inject_Z (Z.of_nat (length l)) * c)%Q.
Proof.
  induction l as [|a l IH]; [simpl; ring|].
  rewrite Qsum_fmap_cons, IH. cbn [length].
  rewrite Nat2Z.inj_succ. unfold Z.succ. rewrite inject_Z_plus. ring.
Qed.

Lemma Qsum_exchange {A B} (a : A -> B -> Q) (la : list A) (lb : list B) :
  (Qsum ((fun x => Qsum ((fun y => a x y) <$> lb)) <$> la)
   == Qsum ((fun y => Qsum ((fun x => a x y) <$> la)) <$> lb))%Q.
Proof.
  induction la as [|x la IH].
  - simpl. rewrite (Qsum_const 0 lb). ring.
  - rewrite Qsum_fmap_cons, IH. symmetry.
    rewrite (Qsum_ext _ (fun y => a x y + Qsum ((fun x' => a x' y) <$> la))%Q lb).
    + apply Qsum_plus.
    + intros y _. by rewrite Qsum_fmap_cons.
Qed.

Lemma Qsum_div {A} (f : A -> Q) (k : Q) (l : list A) :
  (Qsum ((fun x => f x / k) <$> l) == Qsum (f <$> l) / k)%Q.
Proof.
  induction l as [|a l IH]; [simpl; unfold Qdiv; ring|].
  rewrite !Qsum_fmap_cons, IH. unfold Qdiv. ring.
Qed.

Lemma Qsum_between {A} (f : A -> Q) (l : list A) :
  (forall x, x ∈ l -> (0 <= f x /\ f x <= 1)%Q) ->
  (0 <= Qsum (f <$> l) /\ Qsum (f <$> l) <= inject_Z (Z.of_nat (length l)))%Q.
Proof.
  induction l as [|a l IH]; intros Hf.
  - simpl. split; apply Qle_refl.
  - rewrite Qsum_fmap_cons. cbn [length].
    destruct (Hf a) as [Ha0 Ha1]; [by left|].
    destruct IH as [IH0 IH1]; [intros x Hx; apply Hf; by right|]. split.
    + apply Qle_trans with (0 + 0)%Q; [apply Qle_refl|]. by apply Qplus_le_compat.
    + rewrite Nat2Z.inj_succ. unfold Z.succ. rewrite inject_Z_plus, Qplus_comm.
      by apply Qplus_le_compat.
Qed.

Lemma at1_seq (v : vector) : (at1 v <$> seq 0 (length v)) = v.
Proof.
  apply list_eq. intros j. rewrite list_lookup_fmap.
  destruct (decide (j < length v)) as [Hj|Hj].
  - rewrite lookup_seq_lt by done. simpl. unfold at1.
    by destruct (lookup_lt_is_Some_2 v j Hj) as [x ->].
  - rewrite lookup_seq_ge by lia. simpl. symmetry. apply lookup_ge_None. lia.
Qed.

Section AverageOfDistributions.
Variable expQ : Q -> Q.
Variable argsort : vector -> list nat.
Variable lrt_correction_fn : engine_type.
Variable w : world.
Hypothesis expQ_pos : forall x, (0 < expQ x)%Q.
Hypothesis argsort_ok : forall v, ArgsortOf v (argsort v).

Lemma last_visit_is_last_epoch (n s i : nat) :
  (forall e, i ∈ visited w e) ->
  last_visit_in w n s i = last_epoch_in n s.
Proof.
  intros Hall. induction n as [|n IH]; [done|].
  cbn [last_visit_in last_epoch_in].
  destruct (decide (n mod hist_depth = s)) as [E|E].
  - by rewrite decide_True.
  - rewrite decide_False by tauto. done.
Qed.

(** The mean over [k >= 1] probability vectors of length [c]. *)
Lemma mean_row_distribution (c : nat) (sel : list nat) (r : nat -> vector) :
  sel <> [] ->
  (forall s, s ∈ sel -> length (r s) = c /\ is_distribution (r s)) ->
  is_distribution
    ((fun j => (Qsum ((fun s => at1 (r s) j) <$> sel)
                / inject_Z (Z.of_nat (length sel)))%Q) <$> seq 0 c).
Proof.
  intros Hne Hr.
  assert (0 < inject_Z (Z.of_nat (length sel)))%Q as Hk.
  { destruct sel; [done|]. unfold Qlt. simpl. lia. }
  assert (forall s j, s ∈ sel -> (0 <= at1 (r s) j /\ at1 (r s) j <= 1)%Q) as Hb.
  { intros s j Hs. destruct (Hr s Hs) as (_ & Hall & _). unfold at1.
    destruct (r s !! j) as [x|] eqn:Ex; simpl.
    - by apply (Forall_lookup_1 _ _ _ _ Hall Ex).
    - split; [apply Qle_refl|done]. }
  split.
  - apply Forall_forall. intros x Hx. apply list_elem_of_fmap in Hx as (j & -> & _).
    destruct (Qsum_between (fun s => at1 (r s) j) sel) as [H0 H1];
      [intros s Hs; by apply Hb|]. split.
    + apply Qle_shift_div_l; [done|]. by rewrite Qmult_0_l.
    + apply Qle_shift_div_r; [done|]. by rewrite Qmult_1_l.
  - rewrite (Qsum_div (fun j => Qsum ((fun s => at1 (r s) j) <$> sel))).
    rewrite (Qsum_exchange (fun j s => at1 (r s) j) (seq 0 c) sel).
    rewrite (Qsum_ext _ (fun _ => 1%Q) sel).
    + rewrite Qsum_const, Qmult_1_r. apply Qmult_inv_r.
      intros E. rewrite E in Hk. by apply Qlt_irrefl in Hk.
    + intros s Hs. destruct (Hr s Hs) as (Hlen & _ & Hsum).
      rewrite <- Hlen. change (fun x => at1 (r s) x) with (at1 (r s)).
      by rewrite at1_seq.
Qed.

(** X17: when [N] is a multiple of 128 and every epoch's sampler goes
    through the [N] examples once, every row of the matrix handed to the
    engine in an epoch [e >= 40] is a probability vector: [C] entries in
    [0,1] that sum to 1 (the mean of ten recorded softmax rows). *)
Theorem average_rows_are_distributions (e : nat) (st : state) (i : nat) :
  n_train w mod batch_size = 0 ->
  (forall e', shuffle w e' ≡ₚ seq 0 (n_train w)) ->
  (forall e' i', length (logits w e' i') = num_class) ->
  run expQ argsort lrt_correction_fn w (S e) = Ok st ->
  warmup_epoch <= e -> i < n_train w ->
  exists c row,
    last (calls st) = Some c /\ c_epoch c = e /\
    c_avg c !! i = Some row /\ length row = num_class /\ is_distribution row.
Proof.
  intros Hmod Hperm Hlog Hr He Hi.
  destruct (run_ind _ _ _ _ argsort_ok _ _ Hr) as (Hind & Hlen & Hnd & Hin).
  destruct (run_shapes _ _ _ _ _ _ Hr) as (Hrec & _).
  pose proof Hr as Hb. apply run_S_Ok in Hb as (st0 & _ & Hb).
  apply epoch_body_Ok in Hb as (_ & _ & _ & _ & _ & Hc).
  pose proof He as He'. apply Nat.leb_le in He'. rewrite He' in Hc.
  destruct Hc as (rows & y & thd & Hg & _ & _ & _ & Hcalls).
  rewrite gather_in_range in Hg by (by rewrite Hrec). injection Hg as <-.
  set (r := fun s => default [] (row_at (output_record st) s i)).
  assert (forall e', i ∈ visited w e') as Hvis
    by (intros e'; by apply visited_everything).
  assert (forall s, s ∈ ind st -> length (r s) = num_class /\ is_distribution (r s))
    as Hrows.
  { intros s Hs. assert (s < hist_depth) as Hslt
      by (by apply (proj1 (Forall_forall _ _) Hin)).
    unfold r. rewrite (run_buffer _ _ _ _ _ _ _ _ Hr Hslt Hi).
    rewrite last_visit_is_last_epoch by done.
    destruct (last_epoch_in_recent (S e) s) as (e' & -> & _); [|done|].
    { unfold hist_depth, warmup_epoch in *. lia. }
    simpl. unfold recorded_row. split.
    - by rewrite softmax_row_length.
    - apply softmax_row_distribution; [done|].
      intros E. specialize (Hlog e' i). rewrite E in Hlog. done. }
  eexists. exists ((fun j => (Qsum ((fun s => at1 (r s) j) <$> ind st)
                               / inject_Z (Z.of_nat (length (ind st))))%Q)
                   <$> seq 0 num_class).
  split; [by rewrite Hcalls, last_snoc|]. split; [done|].
  split; [|split].
  - unfold call_of. cbn [c_avg]. unfold mean0.
    rewrite list_lookup_fmap, lookup_seq_lt by done.
    cbn [fmap option_fmap option_map Nat.add]. f_equal.
    apply list_fmap_ext. intros _ j _. rewrite length_fmap. f_equal. f_equal.
    rewrite <- list_fmap_compose. apply list_fmap_ext. intros _ s _. simpl.
    unfold r, row_at, at2. by destruct (output_record st !! s).
  - by rewrite length_fmap, length_seq.
  - apply mean_row_distribution; [|done].
    intros E. rewrite E in Hlen. done.
Qed.

End AverageOfDistributions.

(** ** The further properties at concrete runs *)

Module MoreSamples.
Import Sample.

(** 128 examples, one full batch per epoch, nothing dropped. *)
Definition even_world : world :=
  {| n_train := 128;
     labels0 := replicate 128 0;
     shuffle := fun e => seq 0 128;
     logits := fun e i => [0; 4; inject_Z (Z.of_nat (e / 16))]%Q ++ replicate 7 0%Q;
     val_correct := fun e => 10 * (e mod 7);
     val_total := 100 |}.

Definition even_state_1 : state :=
  match run exp2 argsort_stable lrt_correction even_world 1 with
  | Ok st => st
  | Raise _ st => st
  end.

Lemma even_run_1 :
  run exp2 argsort_stable lrt_correction even_world 1 = Ok even_state_1.
Proof. vm_compute. reflexivity. Qed.

Definition even_state_41 : state :=
  match run exp2 argsort_stable lrt_correction even_world 41 with
  | Ok st => st
  | Raise _ st => st
  end.

Lemma even_run_41 :
  run exp2 argsort_stable lrt_correction even_world 41 = Ok even_state_41.
Proof. vm_compute. reflexivity. Qed.

Lemma sample_logits_width (e i : nat) : length (logits sample_world e i) = num_class.
Proof. reflexivity. Qed.

End MoreSamples.

Import Sample MoreSamples.

Lemma training_pass_visits_witness :
  NoDup (visited sample_world 1) /\
  length (visited sample_world 1)
  = n_train sample_world - n_train sample_world mod batch_size /\
  (forall i, i ∈ visited sample_world 1 -> i < n_train sample_world) /\
  (n_train sample_world mod batch_size = 0 ->
   forall i, i < n_train sample_world -> i ∈ visited sample_world 1).
Proof.
  refine (training_pass_visits sample_world 1 _). reflexivity.
Defined.

Lemma full_batches_record_every_example_witness :
  row_at (output_record even_state_1) (0 mod hist_depth) 127
  = Some (recorded_row exp2 even_world 0 127).
Proof.
  refine (full_batches_record_every_example exp2 argsort_stable lrt_correction
            even_world 0 even_state_1 127 _ _ even_run_1 _);
    [reflexivity | reflexivity | simpl; lia].
Defined.

Lemma selection_never_out_of_range_witness :
  sample_run 42 = Ok (state_after 42) /\
  sample_run 42 <> Raise IndexError (state_after 42).
Proof.
  split; [exact sample_run_42|].
  exact (selection_never_out_of_range exp2 argsort_stable lrt_correction sample_world
           argsort_stable_ok 42 (state_after 42)).
Defined.

Lemma sample_shuffle_perm (e : nat) :
  shuffle sample_world e ≡ₚ seq 0 (n_train sample_world).
Proof.
  unfold sample_world, shuffle, n_train. destruct (e =? 0); [|done].
  change (seq 0 129) with (seq 0 128 ++ [128]). apply Permutation_cons_append.
Qed.

Lemma epoch_loop_completes_witness :
  exists st, run exp2 argsort_stable lrt_correction sample_world 100 = Ok st /\
    c_epoch <$> calls st = seq warmup_epoch (100 - warmup_epoch) /\
    length (targets (trainset st)) = n_train sample_world /\
    Forall (fun y => y < num_class) (targets (trainset st)) /\
    forall e i, e < 100 -> i ∈ visited sample_world e ->
      exists st_e y, run exp2 argsort_stable lrt_correction sample_world e = Ok st_e /\
                     targets (trainset st_e) !! i = Some y /\
                     y < length (logits sample_world e i).
Proof.
  refine (epoch_loop_completes exp2 argsort_stable lrt_correction sample_world
            argsort_stable_ok 100 _ sample_shuffle_perm _ sample_logits_width _ _
            lrt_correction_returns_class_indices).
  - unfold batch_size. simpl. lia.
  - discriminate.
  - reflexivity.
  - apply Forall_replicate. unfold num_class. lia.
Defined.

Lemma buffer_shape_invariant_witness :
  length (output_record (state_after 42)) = hist_depth /\
  length (val_record (state_after 42)) = hist_depth /\
  Forall (fun m => length m = n_train sample_world /\
                   Forall (fun r => length r = num_class) m)
         (output_record (state_after 42)).
Proof.
  exact (buffer_shape_invariant exp2 argsort_stable lrt_correction sample_world
           42 (state_after 42) sample_logits_width sample_run_42).
Defined.

Lemma ledger_before_wraparound_witness :
  val_record (state_after 1) !! 5
  = Some (if decide (5 < 1) then val_acc sample_world 5 else 0%Q).
Proof.
  refine (ledger_before_wraparound exp2 argsort_stable lrt_correction sample_world
            1 (state_after 1) 5 sample_run_1 _ _); unfold hist_depth; lia.
Defined.


(** Without a training example [main] stops at the train loader. *)
Example main_empty_train_set :
  main nat exp2 argsort_stable lrt_correction
       {| n_train := 0; labels0 := []; shuffle := fun _ => [];
          logits := fun _ _ => []; val_correct := fun _ => 0; val_total := 100 |}
       (fun e => e) (fun weights => weights) 100 0
  = EmptyTrainSet.
Proof. reflexivity. Qed.

Lemma sample_main_returns :
  main nat exp2 argsort_stable lrt_correction sample_world (fun e => e)
       (fun weights => 50 + weights) 100 3
  = Returns (inject_Z (Z.of_nat (50 + 2)) / inject_Z (Z.of_nat 100) * 100)%Q.
Proof. vm_compute. reflexivity. Qed.

Lemma main_returns_test_of_best_epoch_witness :
  exists e, e < 3 /\
    best_epoch (checkpoint_after nat sample_world (fun e => e) 3) = e /\
    (0 < val_acc sample_world e)%Q /\
    (forall e', e' < 3 -> (val_acc sample_world e' <= val_acc sample_world e)%Q) /\
    (forall e', e' < e -> (val_acc sample_world e' < val_acc sample_world e)%Q) /\
    100 <> 0 /\
    (inject_Z (Z.of_nat (50 + 2)) / inject_Z (Z.of_nat 100) * 100)%Q
    = (inject_Z (Z.of_nat (50 + e)) / inject_Z (Z.of_nat 100) * 100)%Q /\
    exists st, sample_run 3 = Ok st.
Proof.
  exact (main_returns_test_of_best_epoch nat exp2 argsort_stable lrt_correction
           sample_world (fun e => e) (fun weights => 50 + weights) 100 3 _
           sample_main_returns).
Defined.

Lemma average_rows_are_distributions_witness :
  exists c row,
    last (calls even_state_41) = Some c /\ c_epoch c = 40 /\
    c_avg c !! 5 = Some row /\ length row = num_class /\ is_distribution row.
Proof.
  refine (average_rows_are_distributions exp2 argsort_stable lrt_correction
            even_world exp2_pos argsort_stable_ok 40 even_state_41 5
            _ _ _ even_run_41 _ _).
  - reflexivity.
  - intros e'. reflexivity.
  - intros e' i'. reflexivity.
  - unfold warmup_epoch. lia.
  - simpl. lia.
Defined.
